(** * aurora-core: a shallow embedding of the orchestration layer

  The development follows the TypeScript sources:
  - [HandlerManager]       root/handler-manager.ts
  - [ServerSettingsStore]  server-settings/server-settings-store.ts
  - [ModeController]       modes/mode-controller.ts
  - [CenturionController]  modes/centurion/centurion-controller.ts

  Part I holds the embedding, Part II the properties. *)

From Stdlib Require Import Psatz Lia ZArith QArith Sorted.
From stdpp Require Import base strings list gmap.

(* ===================================================================== *)
(** * Part I: the embedding                                               *)
(* ===================================================================== *)

(** ** JavaScript scaffolding: exceptions, insertion-ordered maps, and
     [forEach] over an array whose elements the callback mutates *)
Module Js.
Inductive Exception : Type :=
| Error (message : string)
| TypeError (message : string)
| ModeDisabledError (message : string).

(** How a call ends: with a value, or with a thrown exception. *)
Inductive Completion (A : Type) : Type :=
| Return (a : A)
| Throw (e : Exception).
Arguments Return {A} a.
Arguments Throw {A} e.

Definition bind {A B : Type} (c : Completion A) (k : A -> Completion B)
  : Completion B :=
  match c with
  | Return a => k a
  | Throw e => Throw e
  end.

(** stdpp's [x ← c; k] reads as sequencing up to the first throw. *)
#[export] Instance Completion_ret : MRet Completion := @Return.
#[export] Instance Completion_bind : MBind Completion :=
  fun A B k c => bind c k.

Definition threw {A : Type} (c : Completion A) : bool :=
  match c with Return _ => false | Throw _ => true end.

(** [Map<K, V>]: entries in insertion order. *)
Section Map.
Context {K V : Type} `{EqDecision K}.

Fixpoint map_get (k : K) (m : list (K * V)) : option V :=
  match m with
  | [] => None
  | (k', v) :: m' => if decide (k = k') then Some v else map_get k m'
  end.

(** [m.set(k, v)] keeps the position of an existing key and appends a
    new one. *)
Fixpoint map_set (k : K) (v : V) (m : list (K * V)) : list (K * V) :=
  match m with
  | [] => [(k, v)]
  | (k', v') :: m' =>
      if decide (k = k') then (k, v) :: m' else (k', v') :: map_set k v m'
  end.

Definition map_keys (m : list (K * V)) : list K := m.*1.
Definition map_values (m : list (K * V)) : list V := m.*2.
End Map.

(** [l.forEach(f)] where [f] may update the element it visits and a
    state [S] shared by all visits. *)
Fixpoint forEach {A S : Type} (f : A -> S -> A * S) (l : list A) (s : S)
  : list A * S :=
  match l with
  | [] => ([], s)
  | a :: l' =>
      let '(a', s1) := f a s in
      let '(l'', s2) := forEach f l' s1 in
      (a' :: l'', s2)
  end.
End Js.


(** ** Persisted device entities and the data source *)
Module Entities.
(** The three classes that extend [SubscribeEntity]; [entity.constructor]
    is one of them. *)
Inductive EntityClass : Type := Audio | LightsGroup | Screen.

#[export] Instance EntityClass_eq_dec : EqDecision EntityClass.
Proof. solve_decision. Defined.

Record SubscribeEntity : Type := mkEntity {
  ctor : EntityClass;            (* entity.constructor *)
  id : nat;
  name : string;
  currentHandler : string;
  socketId : option string;      (* string | undefined *)
}.

#[export] Instance SubscribeEntity_eq_dec : EqDecision SubscribeEntity.
Proof. solve_decision. Defined.

Definition set_socketId (s : option string) (e : SubscribeEntity)
  : SubscribeEntity :=
  {| ctor := ctor e; id := id e; name := name e;
     currentHandler := currentHandler e; socketId := s |}.

(** Two entity objects stand for the same row when class and primary
    key agree. *)
Definition same_row (a b : SubscribeEntity) : Prop :=
  ctor a = ctor b /\ id a = id b.

#[export] Instance same_row_dec a b : Decision (same_row a b).
Proof. unfold same_row. apply _. Defined.

(** The persistence collaborator: one table of rows per class. *)
Definition DataSource : Type := list SubscribeEntity.

(** [dataSource.manager.find(entity)] *)
Definition find (cls : EntityClass) (db : DataSource)
  : list SubscribeEntity :=
  filter (fun e => ctor e = cls) db.

(** [getRepository(entity).find({ where: { id: In(ids) } })] *)
Definition find_in (cls : EntityClass) (ids : list nat) (db : DataSource)
  : list SubscribeEntity :=
  filter (fun e => ctor e = cls /\ id e ∈ ids) db.

(** What an UPDATE of the row [r] from the entity object [e] leaves in
    the table.  The ORM writes the properties of [e] that are defined and
    skips a property whose value is [undefined]: the column keeps what
    the row held.  [socketId] is the one property of an entity that can
    be [undefined]. *)
Definition updated (e r : SubscribeEntity) : SubscribeEntity :=
  match socketId e with
  | Some _ => e
  | None => set_socketId (socketId r) e
  end.

(** [entity.save()]: update the row of the entity, insert it if new. *)
Fixpoint save (e : SubscribeEntity) (db : DataSource) : DataSource :=
  match db with
  | [] => [e]
  | r :: db' =>
      if decide (same_row e r) then updated e r :: db' else r :: save e db'
  end.

(** The row stored for a class and a primary key. *)
Fixpoint row (cls : EntityClass) (i : nat) (db : DataSource)
  : option SubscribeEntity :=
  match db with
  | [] => None
  | r :: db' =>
      if decide (ctor r = cls /\ id r = i) then Some r else row cls i db'
  end.

(** The socket id stored for a class and a primary key, if any. *)
Definition stored_socketId (cls : EntityClass) (i : nat) (db : DataSource)
  : option string :=
  row cls i db ≫= socketId.
End Entities.

(** ** HandlerManager *)
Module HandlerManager.
Import Js Entities.

(** *** The socket.io server, as far as the manager uses it *)
Record Emit : Type := mkEmit {
  to : string;                   (* id of the socket written to *)
  event : string;
  args : list string;
}.

Record Server : Type := mkServer {
  sockets : list string;         (* keys of io.sockets.sockets *)
  emitted : list Emit;           (* what has been sent, oldest first *)
}.

(** [io.sockets.sockets.get(socketId)] *)
Definition sockets_get (sid : string) (io : Server) : option string :=
  if decide (sid ∈ sockets io) then Some sid else None.

(** [socket?.emit(event, ...args)] *)
Definition emit (socket : option string) (ev : string) (a : list string)
           (io : Server) : Server :=
  match socket with
  | Some sid =>
      {| sockets := sockets io;
         emitted := emitted io ++ [mkEmit sid ev a] |}
  | None => io
  end.

(** *** BaseHandler *)
Record BaseHandler : Type := mkHandler {
  hname : string;                (* handler.constructor.name *)
  entities : list SubscribeEntity;
}.

Definition holds (h : BaseHandler) (e : SubscribeEntity) : Prop :=
  id e ∈ id <$> entities h.

#[export] Instance holds_dec h e : Decision (holds h e).
Proof. unfold holds. apply _. Defined.

(** Modelled from the spec: [BaseHandler.registerEntity], whose source
    is not part of the files at hand.  A Handler "owns a set of
    currently-registered DeviceEntity references (membership only)":
    registering adds the entity to that set. *)
Definition registerEntity (h : BaseHandler) (e : SubscribeEntity)
  : BaseHandler :=
  if decide (holds h e) then h
  else {| hname := hname h; entities := entities h ++ [e] |}.

(** Modelled from the spec: [BaseHandler.removeEntity], whose source is
    not part of the files at hand.  It "deregisters" the entity,
    "idempotent if absent". *)
Definition removeEntity (h : BaseHandler) (e : SubscribeEntity)
  : BaseHandler :=
  {| hname := hname h;
     entities := filter (fun x => id x <> id e) (entities h) |}.

(** *** The manager and the world around it *)
Record HandlerManager : Type := mkManager {
  initialized : bool;
  _handlers : list (EntityClass * list BaseHandler);
  io : Server;
}.

(** The two callbacks that [init] hands to the socket connection
    emitter. *)
Inductive Callback : Type := OnConnect | OnDisconnect.

Record User : Type := mkUser { uname : string }.

Record World : Type := mkWorld {
  manager : HandlerManager;
  dataSource : DataSource;
  (* socketConnectionEmitter: event name and callback, in order *)
  listeners : list (string * Callback);
}.

Definition with_handlers (hs : list (EntityClass * list BaseHandler))
           (m : HandlerManager) : HandlerManager :=
  {| initialized := initialized m; _handlers := hs; io := io m |}.

Definition with_io (s : Server) (m : HandlerManager) : HandlerManager :=
  {| initialized := initialized m; _handlers := _handlers m; io := s |}.

(** The private constructor: "register all possible handlers". *)
Definition new (server : Server) : HandlerManager :=
  let lightsHandlers :=
    [ mkHandler "RandomEffectsHandler" [];
      mkHandler "SetEffectsHandler" [];
      mkHandler "DevelopEffectsHandler" [] ] in
  {| initialized := false;
     _handlers :=
       map_set Screen []
         (map_set LightsGroup lightsHandlers
            (map_set Audio [ mkHandler "SimpleAudioHandler" [] ] []));
     io := server |}.

(** [getHandlers(entity?)] *)
Definition getHandlers (entity : option EntityClass) (m : HandlerManager)
  : list BaseHandler :=
  match entity with
  | None => concat (map_values (_handlers m))
  | Some cls => default [] (map_get cls (_handlers m))
  end.

(** The array that [getHandlers(cls)] returns is the one stored in the
    map, so what a caller does to its handlers is seen by the manager;
    for an unknown class the array is a fresh [[]] and nothing is
    stored. *)
Definition store_handlers (cls : EntityClass) (hs : list BaseHandler)
           (m : HandlerManager) : HandlerManager :=
  match map_get cls (_handlers m) with
  | Some _ => with_handlers (map_set cls hs (_handlers m)) m
  | None => m
  end.

(** [restoreHandlers(entity, handlers)] *)
Definition restoreHandlers (entity : SubscribeEntity)
           (handlers : list BaseHandler) : list BaseHandler :=
  (fun handler =>
     if decide (hname handler = currentHandler entity)
     then registerEntity handler entity
     else handler) <$> handlers.

(** [registerHandler(entity, newHandler)] *)
Definition registerHandler (entity : SubscribeEntity) (newHandler : string)
           (m : HandlerManager) : HandlerManager :=
  let handlers := getHandlers (Some (ctor entity)) m in
  let handlers := (fun handler => removeEntity handler entity) <$> handlers in
  let socket := sockets_get (default "" (socketId entity)) (io m) in
  let '(handlers, io') :=
    if decide (newHandler <> "") then
      forEach (fun handler s =>
                 if decide (hname handler = newHandler)
                 then (registerEntity handler entity,
                       emit socket "handler_set" [newHandler] s)
                 else (handler, s))
              handlers (io m)
    else (handlers, emit socket "handler_remove" [] (io m)) in
  store_handlers (ctor entity) handlers (with_io io' m).

Definition class_name (cls : EntityClass) : string :=
  match cls with
  | Audio => "Audio"
  | LightsGroup => "LightsGroup"
  | Screen => "Screen"
  end.

(** The body of [entities.forEach((instance) => ...)] in [init]. *)
Definition restore_instance (instance : SubscribeEntity)
           (m : HandlerManager) : Completion HandlerManager :=
  match map_get (ctor instance) (_handlers m) with
  | None => Throw (Error ("Unknown entity: " +:+ class_name (ctor instance)))
  | Some handlers =>
      Return (store_handlers (ctor instance)
                (restoreHandlers instance handlers) m)
  end.

Fixpoint restore_instances (instances : list SubscribeEntity)
         (m : HandlerManager) : Completion HandlerManager :=
  match instances with
  | [] => Return m
  | instance :: rest =>
      m' ← restore_instance instance m; restore_instances rest m'
  end.

(** The callbacks under [Promise.all]: each touches the handlers of its
    own class only, so they are run one class after the other. *)
Fixpoint restore_classes (keys : list EntityClass) (db : DataSource)
         (m : HandlerManager) : Completion HandlerManager :=
  match keys with
  | [] => Return m
  | entity :: rest =>
      m' ← restore_instances (find entity db) m; restore_classes rest db m'
  end.

(** [init(socketConnectionEmitter)].  Nothing in the class ever assigns
    [initialized]; it keeps the [false] of its declaration. *)
Definition init (w : World) : Completion World :=
  if initialized (manager w)
  then Throw (Error "HandlerManager already initialized.")
  else
    m ← restore_classes (map_keys (_handlers (manager w)))
                        (dataSource w) (manager w);
    Return {| manager := m;
              dataSource := dataSource w;
              listeners := listeners w ++ [ ("connect", OnConnect);
                                            ("disconnect", OnDisconnect) ] |}.

(** [this._handlers.forEach((handlers) => handlers.forEach((handler) =>
    handler.entities.forEach((entity) => ...)))] *)
Definition scan {S : Type}
           (visit : string -> SubscribeEntity -> S -> SubscribeEntity * S)
           (hs : list (EntityClass * list BaseHandler)) (s : S)
  : list (EntityClass * list BaseHandler) * S :=
  forEach (fun '(cls, handlers) s =>
             let '(handlers', s') :=
               forEach (fun handler s =>
                          let '(es, s') :=
                            forEach (visit (hname handler))
                                    (entities handler) s in
                          ({| hname := hname handler; entities := es |}, s'))
                       handlers s in
             ((cls, handlers'), s'))
          hs s.

(** The visit of one entity by the 'connect' callback. *)
Definition connect_visit (user : User) (sid : string) (handler : string)
           (entity : SubscribeEntity) (s : Server * DataSource)
  : SubscribeEntity * (Server * DataSource) :=
  if decide (name entity = uname user) then
    let io' := emit (sockets_get sid s.1) "handler_set" [handler] s.1 in
    let entity' := set_socketId (Some sid) entity in
    (entity', (io', save entity' s.2))
  else (entity, s).

(** The visit of one entity by the 'disconnect' callback. *)
Definition disconnect_visit (user : User) (sid : string) (handler : string)
           (entity : SubscribeEntity) (s : Server * DataSource)
  : SubscribeEntity * (Server * DataSource) :=
  if decide (name entity = uname user) then
    let io' := emit (sockets_get sid s.1) "handler_remove" [handler] s.1 in
    let entity' := set_socketId None entity in
    (entity', (io', save entity' s.2))
  else (entity, s).

Definition run_callback (cb : Callback) (user : User) (sid : string)
           (w : World) : World :=
  let visit :=
    match cb with
    | OnConnect => connect_visit user sid
    | OnDisconnect => disconnect_visit user sid
    end in
  let '(hs, (io', db')) :=
    scan visit (_handlers (manager w)) (io (manager w), dataSource w) in
  {| manager := with_handlers hs (with_io io' (manager w));
     dataSource := db';
     listeners := listeners w |}.

(** [socketConnectionEmitter.emit(ev, user, socketId)]: every callback
    registered for [ev] runs, in the order of registration. *)
Definition emit_event (ev : string) (user : User) (sid : string)
           (w : World) : World :=
  foldl (fun w '(ev', cb) =>
           if decide (ev' = ev) then run_callback cb user sid w else w)
        w (listeners w).

(** *** Vocabulary of the properties *)

(** The handlers of [e]'s class that hold [e]. *)
Definition holders (e : SubscribeEntity) (m : HandlerManager)
  : list BaseHandler :=
  filter (fun h => holds h e) (getHandlers (Some (ctor e)) m).

(** What [registerHandler(e, n)] leaves of a handler [h] of [e]'s
    class. *)
Definition rebind (e : SubscribeEntity) (n : string) (h : BaseHandler)
  : BaseHandler :=
  if decide (n <> "" /\ hname h = n)
  then registerEntity (removeEntity h e) e
  else removeEntity h e.

(** No class has two handlers of one name, and none is named [""]. *)
Definition names_ok (m : HandlerManager) : Prop :=
  Forall (fun hs => NoDup (hname <$> hs) /\ "" ∉ hname <$> hs)
         (map_values (_handlers m)).

(** Each entity is registered with at most one handler of its class. *)
Definition at_most_one (m : HandlerManager) : Prop :=
  forall e, length (holders e m) <= 1.

#[export] Instance names_ok_dec m : Decision (names_ok m).
Proof. unfold names_ok. apply _. Defined.

(** Every registration, as the scans of the connect and disconnect
    callbacks meet them: the handler's name and the entity. *)
Definition registrations (hs : list (EntityClass * list BaseHandler))
  : list (string * SubscribeEntity) :=
  p ← hs; h ← p.2; e ← entities h; [(hname h, e)].

(** The primary key: no two rows of one class share an id. *)
Definition rows_distinct (db : DataSource) : Prop :=
  NoDup ((fun r => (ctor r, id r)) <$> db).

(** Whatever row is bound, is bound to the handler that its persisted
    [currentHandler] names.  Nothing is bound after the constructor. *)
Definition agrees (db : DataSource) (m : HandlerManager) : Prop :=
  forall r h, r ∈ db -> h ∈ holders r m -> hname h = currentHandler r.

#[export] Instance rows_distinct_dec db : Decision (rows_distinct db).
Proof. unfold rows_distinct. apply _. Defined.

(** What a connect or disconnect for [who] leaves in the handlers. *)
Definition retag_entity (who : string) (s : option string)
           (e : SubscribeEntity) : SubscribeEntity :=
  if decide (name e = who) then set_socketId s e else e.

Definition retag_handler (who : string) (s : option string)
           (h : BaseHandler) : BaseHandler :=
  {| hname := hname h; entities := retag_entity who s <$> entities h |}.

Definition retag (who : string) (s : option string)
           (hs : list (EntityClass * list BaseHandler))
  : list (EntityClass * list BaseHandler) :=
  (fun p : EntityClass * list BaseHandler =>
     (p.1, retag_handler who s <$> p.2)) <$> hs.

(** A manager that knows every class. *)
Definition knows_all (m : HandlerManager) : Prop :=
  forall cls, is_Some (map_get cls (_handlers m)).

(** The socket connection emitter after one [init]: the manager's two
    callbacks and nothing else. *)
Definition subscribed (w : World) : Prop :=
  listeners w = [ ("connect", OnConnect); ("disconnect", OnDisconnect) ].

(** The socket connection emitter before anything subscribed, the
    manager fresh from its constructor. *)
Definition boot (server : Server) (db : DataSource) : World :=
  {| manager := new server; dataSource := db; listeners := [] |}.

(** The worlds that a run can be in: booted by one [init], then any
    number of [registerHandler] calls and socket events. *)
Inductive reachable : World -> Prop :=
| reachable_boot server db w :
    rows_distinct db -> init (boot server db) = Return w -> reachable w
| reachable_registerHandler w e n :
    reachable w ->
    reachable {| manager := registerHandler e n (manager w);
                 dataSource := dataSource w;
                 listeners := listeners w |}
| reachable_event w ev user sid :
    reachable w -> reachable (emit_event ev user sid w).
End HandlerManager.

(** ** ServerSettingsStore *)
Module ServerSettingsStore.
Import Js.

(** A row of the settings table; values are kept as text. *)
Record ServerSetting : Type := mkSetting {
  key : string;
  value : string;
}.

Record ServerSettingsStore : Type := mkStore {
  initialized : bool;
  repo : list ServerSetting;            (* the table behind [this.repo] *)
  settings : gmap string string;        (* [this.settings] *)
}.

(** [new ServerSettingsStore()] over a given table. *)
Definition new (table : list ServerSetting) : ServerSettingsStore :=
  {| initialized := false; repo := table; settings := ∅ |}.

(** [settings.find((s) => s.key === key)] *)
Definition find_setting (k : string) (l : list ServerSetting)
  : option ServerSetting :=
  snd <$> list_find (fun s => key s = k) l.

(** [this.repo.save({ key, value })]: the row is written, and returned. *)
Fixpoint repo_save (row : ServerSetting) (table : list ServerSetting)
  : list ServerSetting :=
  match table with
  | [] => [row]
  | r :: table' =>
      if decide (key r = key row) then row :: table'
      else r :: repo_save row table'
  end.

(** [k] between double quotes. *)
Definition quoted (k : string) : string :=
  String (Ascii.ascii_of_nat 34) (k +:+ String (Ascii.ascii_of_nat 34) EmptyString).

Section Defaults.
(** [SettingsDefaults], declared with the entity and not part of the
    files at hand: its entries, in the order of [Object.entries]. *)
Variable SettingsDefaults : list (string * string).

(** [initialize] starts its saves one after another without awaiting
    them, and awaits them together: the code does not fix the order in
    which their rows reach the table.  [arrival] is that order: it takes
    the rows in the order in which their saves were started and gives
    them in the order in which the table receives them. *)
Variable arrival : list ServerSetting -> list ServerSetting.

(** First [forEach] of [initialize]: a save is started for each default
    that the fetched [settings] lack.  The rows of [promises], in the
    order in which [Promise.all] resolves to them. *)
Fixpoint save_missing (entries : list (string * string))
         (fetched : list ServerSetting) : list ServerSetting :=
  match entries with
  | [] => []
  | (k, v) :: rest =>
      match find_setting k fetched with
      | Some _ => save_missing rest fetched
      | None => mkSetting k v :: save_missing rest fetched
      end
  end.

(** The table once the saves started for [rows] are carried out. *)
Definition settle (rows table : list ServerSetting) : list ServerSetting :=
  foldl (fun table row => repo_save row table) table (arrival rows).

(** Second [forEach]: every default key must now be among the settings. *)
Fixpoint collect (keys : list string) (all : list ServerSetting)
         (map : gmap string string) : Completion (gmap string string) :=
  match keys with
  | [] => Return map
  | k :: rest =>
      match find_setting k all with
      | None =>
          Throw (Error ("Setting " +:+ quoted k
                        +:+ " missing during initialization"))
      | Some setting =>
          collect rest all (<[key setting := value setting]> map)
      end
  end.

(** [initialize()] *)
Definition initialize (store : ServerSettingsStore)
  : Completion ServerSettingsStore :=
  if initialized store
  then Throw (Error "ServerSettingsStore already initialized!")
  else
    let fetched := repo store in
    let saved := save_missing SettingsDefaults fetched in
    let table := settle saved (repo store) in
    let all := fetched ++ saved in
    map ← collect (SettingsDefaults.*1) all ∅;
    Return {| initialized := true; repo := table; settings := map |}.
End Defaults.

(** An order of arrival loses no row and adds none. *)
Definition reorders (arrival : list ServerSetting -> list ServerSetting)
  : Prop :=
  forall rows, arrival rows ≡ₚ rows.
End ServerSettingsStore.

(** ** Mix tapes *)
Module MixTape.
Record SongData : Type := mkSong { artist : string; title : string }.

(** The five kinds of feed event with their payload. *)
Inductive FeedData : Type :=
| Horn (counter : nat)
| Song (data : list SongData)
| Beat
| Effect (effect : string)            (* the builder, by name *)
| Other (data : string).

Record FeedEvent : Type := mkEvent {
  timestamp : Q;                       (* seconds from the start *)
  data : FeedData;
}.

(** [e.type] *)
Definition type (e : FeedEvent) : string :=
  match data e with
  | Horn _ => "horn"
  | Song _ => "song"
  | Beat => "beat"
  | Effect _ => "effect"
  | Other _ => "other"
  end.

Record MixTape : Type := mkTape {
  name : string;
  coverUrl : string;
  songFile : string;
  feed : list FeedEvent;
  duration : Q;
}.
End MixTape.

(** ** CenturionMode: the tape scheduler *)
Module CenturionMode.
Import Entities MixTape.
Local Open Scope Q_scope.

(** The two event sources that the mode manager owns. *)
Inductive Emitter : Type := MusicEmitter | BackofficeSyncEmitter.

(** Modelled from the spec: the class [CenturionMode], whose source is
    not part of the files at hand.  Its playback state is "current
    elapsed time, playing/paused flag, next-undispatched-cue index";
    [start] "records a start timestamp".  [dispatched] lists what the
    scheduling loop has dispatched: the index of the cue and the
    elapsed time of the tick that dispatched it. *)
Record CenturionMode : Type := mkMode {
  lights : list SubscribeEntity;
  screens : list SubscribeEntity;
  audios : list SubscribeEntity;
  emitter : option Emitter;
  tape : option MixTape;
  ready : bool;                        (* collaborators prepared *)
  startTime : Q;
  playing : bool;
  elapsed : Q;
  nextCue : nat;
  dispatched : list (nat * Q);
}.

(** Modelled from the spec: the constructor of [CenturionMode], not
    part of the files at hand; a mode without tape, not playing. *)
Definition new (l s a : list SubscribeEntity) : CenturionMode :=
  {| lights := l; screens := s; audios := a; emitter := None; tape := None;
     ready := false; startTime := 0; playing := false; elapsed := 0;
     nextCue := 0; dispatched := [] |}.

(** Modelled from the spec: [CenturionMode.initialize], not part of the
    files at hand; the shared event source is "handed to every mode on
    initialize". *)
Definition initialize (e : Emitter) (m : CenturionMode) : CenturionMode :=
  {| lights := lights m; screens := screens m; audios := audios m;
     emitter := Some e; tape := tape m; ready := ready m;
     startTime := startTime m; playing := playing m; elapsed := elapsed m;
     nextCue := nextCue m; dispatched := dispatched m |}.

(** Modelled from the spec: [CenturionMode.loadTape], not part of the
    files at hand; it "stores the ordered cue list and resets playback
    state to elapsed=0, next-cue-index=0". *)
Definition loadTape (t : MixTape) (m : CenturionMode) : CenturionMode :=
  {| lights := lights m; screens := screens m; audios := audios m;
     emitter := emitter m; tape := Some t; ready := ready m;
     startTime := startTime m; playing := playing m; elapsed := 0;
     nextCue := 0; dispatched := dispatched m |}.

(** The playback state replaced, the rest kept. *)
Definition with_playback (st : Q) (p : bool) (e : Q) (n : nat)
           (d : list (nat * Q)) (m : CenturionMode) : CenturionMode :=
  {| lights := lights m; screens := screens m; audios := audios m;
     emitter := emitter m; tape := tape m; ready := ready m;
     startTime := st; playing := p; elapsed := e; nextCue := n;
     dispatched := d |}.

(** Modelled from the spec: the moment at which the collaborators that
    [start] waits for are ready ("audio asset ... fully prepared"); the
    class [CenturionMode] is not part of the files at hand.  From then
    on [start] succeeds on a mode with a tape. *)
Definition prepared (m : CenturionMode) : CenturionMode :=
  {| lights := lights m; screens := screens m; audios := audios m;
     emitter := emitter m; tape := tape m; ready := true;
     startTime := startTime m; playing := playing m; elapsed := elapsed m;
     nextCue := nextCue m; dispatched := dispatched m |}.

(** The cues of the loaded tape. *)
Definition cues (m : CenturionMode) : list FeedEvent :=
  match tape m with Some t => feed t | None => [] end.

(** Modelled from the spec: [CenturionMode.start], not part of the
    files at hand.  It "fails (returns a not-ready signal, not an
    exception) if required collaborators are not ready; otherwise
    records a start timestamp, transitions to Playing".  The start
    timestamp is set so that the elapsed time goes on from where it
    stood; [now] is the clock at the call. *)
Definition start (now : Q) (m : CenturionMode) : bool * CenturionMode :=
  if ready m && bool_decide (is_Some (tape m))
  then (true, with_playback (now - elapsed m) true (elapsed m) (nextCue m)
                (dispatched m) m)
  else (false, m).

(** Modelled from the spec: [CenturionMode.stop], not part of the files
    at hand; it "halts the scheduling loop, leaves elapsed/playback
    state intact for inspection but marks playing=false". *)
Definition stop (m : CenturionMode) : CenturionMode :=
  with_playback (startTime m) false (elapsed m) (nextCue m) (dispatched m) m.

(** Modelled from the spec: the clamping inside [CenturionMode.skip],
    not part of the files at hand: [seconds] "clamped to ≥0". *)
Definition clamp (seconds : Q) : Q :=
  if Qlt_le_dec seconds 0 then 0 else seconds.

(** Modelled from the spec: the index that [CenturionMode.skip], not
    part of the files at hand, looks up: "the first cue with timestamp >
    seconds", or the number of cues if there is none. *)
Fixpoint first_after (seconds : Q) (l : list FeedEvent) : nat :=
  match l with
  | [] => 0%nat
  | cue :: rest =>
      if Qlt_le_dec seconds (timestamp cue) then 0%nat
      else S (first_after seconds rest)
  end.

(** Modelled from the spec: [CenturionMode.skip], not part of the files
    at hand.  It "re-anchors elapsed time to seconds (clamped to ≥0) and
    recomputes next-cue-index as the first cue with timestamp >
    seconds". *)
Definition skip (now : Q) (seconds : Q) (m : CenturionMode) : CenturionMode :=
  with_playback (now - clamp seconds) (playing m) (clamp seconds)
    (first_after seconds (cues m)) (dispatched m) m.

(** Modelled from the spec: the inner loop of a tick of
    [CenturionMode], not part of the files at hand: how many of the
    pending cues, taken in order ("the scheduler does not sort"), have a
    timestamp ≤ elapsed. *)
Fixpoint due (e : Q) (pending : list FeedEvent) : nat :=
  match pending with
  | [] => 0%nat
  | cue :: rest =>
      if Qle_bool (timestamp cue) e then S (due e rest) else 0%nat
  end.

(** Modelled from the spec: one turn of the scheduling loop of
    [CenturionMode], not part of the files at hand.  While playing, a
    tick "computes elapsed time and dispatches every cue whose timestamp
    is ≤ elapsed and has not yet been dispatched, advancing
    next-cue-index monotonically"; a stopped mode has no loop. *)
Definition tick (now : Q) (m : CenturionMode) : CenturionMode :=
  if playing m then
    let e := now - startTime m in
    let n := due e (drop (nextCue m) (cues m)) in
    with_playback (startTime m) true e (nextCue m + n)%nat
      (dispatched m ++ ((fun i => (i, e)) <$> seq (nextCue m) n)) m
  else m.

(** Modelled from the spec: what moves the state machine "Loaded →
    Playing ⇄ Paused/Stopped" of [CenturionMode], not part of the files
    at hand: its collaborators get ready, [start] and [stop] are called,
    the scheduling loop takes a turn; [now] is the clock at that
    moment. *)
Inductive Event : Type :=
| Prepared
| Start (now : Q)
| Stop
| Tick (now : Q).

Definition step (m : CenturionMode) (ev : Event) : CenturionMode :=
  match ev with
  | Prepared => prepared m
  | Start now => (start now m).2
  | Stop => stop m
  | Tick now => tick now m
  end.

(** The events [evs], in turn. *)
Definition run (evs : list Event) (m : CenturionMode) : CenturionMode :=
  foldl step m evs.

(** The clock along [evs]. *)
Definition clock (evs : list Event) : list Q :=
  ev ← evs; match ev with
            | Start now | Tick now => [now]
            | Prepared | Stop => []
            end.

(** The elapsed times that the scheduling loop computes along [evs]:
    one for each tick that finds the mode playing. *)
Fixpoint readings (evs : list Event) (m : CenturionMode) : list Q :=
  match evs with
  | [] => []
  | ev :: rest =>
      match ev with
      | Tick now => if playing m then [now - startTime m] else []
      | Prepared | Start _ | Stop => []
      end ++ readings rest (step m ev)
  end.

(** The invariant of a tape: "timestamps are monotonically
    non-decreasing in authored order". *)
Definition authored (l : list FeedEvent) : Prop :=
  StronglySorted (fun a b => timestamp a <= timestamp b) l.

(** Clock readings that do not run backwards. *)
Definition forward (nows : list Q) : Prop := StronglySorted Qle nows.
End CenturionMode.

(** ** ModeManager *)
Module ModeManager.
Import Js Entities.

(** The mode classes that callers pass as [type]. *)
Inductive ModeType : Type := CenturionModeClass | TimeTrailRaceModeClass.

#[export] Instance ModeType_eq_dec : EqDecision ModeType.
Proof. solve_decision. Defined.

(** Modelled from the spec: the class [TimeTrailRaceMode], whose source
    is not part of the files at hand; a mode built from the resolved
    entities and initialised with an event source and a session name. *)
Record TimeTrailRaceMode : Type := mkRace {
  race_lights : list SubscribeEntity;
  race_screens : list SubscribeEntity;
  race_audios : list SubscribeEntity;
  race_emitter : option CenturionMode.Emitter;
  sessionName : option string;
}.

(** Modelled from the spec: the constructor of [TimeTrailRaceMode] and
    its [initialize], not part of the files at hand. *)
Definition race_new (l s a : list SubscribeEntity) : TimeTrailRaceMode :=
  {| race_lights := l; race_screens := s; race_audios := a;
     race_emitter := None; sessionName := None |}.

Definition race_initialize (e : CenturionMode.Emitter) (session : string)
           (m : TimeTrailRaceMode) : TimeTrailRaceMode :=
  {| race_lights := race_lights m; race_screens := race_screens m;
     race_audios := race_audios m; race_emitter := Some e;
     sessionName := Some session |}.

(** A mode instance. *)
Inductive Mode : Type :=
| Centurion (mode : CenturionMode.CenturionMode)
| TimeTrailRace (mode : TimeTrailRaceMode).

(** Modelled from the spec: the class [ModeManager], whose source is not
    part of the files at hand: "a mapping from mode-key to {mode type,
    instance}, plus two shared event sources". *)
Record ModeManager : Type := mkModes {
  modes : list (string * (ModeType * Mode));
  musicEmitter : CenturionMode.Emitter;
  backofficeSyncEmitter : CenturionMode.Emitter;
}.

(** Modelled from the spec: [ModeManager.getInstance()] at process
    start, not part of the files at hand: no mode, the two event
    sources created. *)
Definition new : ModeManager :=
  {| modes := [];
     musicEmitter := CenturionMode.MusicEmitter;
     backofficeSyncEmitter := CenturionMode.BackofficeSyncEmitter |}.

Definition with_modes (ms : list (string * (ModeType * Mode)))
           (mm : ModeManager) : ModeManager :=
  {| modes := ms; musicEmitter := musicEmitter mm;
     backofficeSyncEmitter := backofficeSyncEmitter mm |}.

(** The first slot that holds a mode of the given type. *)
Fixpoint find_slot (type : ModeType) (ms : list (string * (ModeType * Mode)))
  : option (string * Mode) :=
  match ms with
  | [] => None
  | (key, (type', instance)) :: rest =>
      if decide (type' = type) then Some (key, instance)
      else find_slot type rest
  end.

(** Modelled from the spec: [ModeManager.getMode], not part of the
    files at hand: a "read-only lookup by mode type across all slots"
    that returns "not found" when absent. *)
Definition getMode (type : ModeType) (mm : ModeManager) : option Mode :=
  snd <$> find_slot type (modes mm).

(** [m.delete(k)] *)
Definition map_delete (key : string) (ms : list (string * (ModeType * Mode)))
  : list (string * (ModeType * Mode)) :=
  filter (fun p => p.1 <> key) ms.

(** Modelled from the spec: [ModeManager.enableMode], not part of the
    files at hand: "if an instance exists for key, invoke its teardown
    first, then store the new instance and key→type mapping".  The
    instance torn down is dropped with its slot. *)
Definition enableMode (type : ModeType) (instance : Mode) (key : string)
           (mm : ModeManager) : ModeManager :=
  with_modes (map_set key (type, instance) (map_delete key (modes mm))) mm.

(** Modelled from the spec: [ModeManager.disableMode], not part of the
    files at hand: it "removes and tears down the instance for key if
    its stored type matches type; otherwise no-op". *)
Definition disableMode (type : ModeType) (key : string) (mm : ModeManager)
  : ModeManager :=
  match map_get key (modes mm) with
  | Some (type', _) =>
      if decide (type' = type) then with_modes (map_delete key (modes mm)) mm
      else mm
  | None => mm
  end.

(** Modelled from the spec: [ModeManager.reset], not part of the files
    at hand: it "disables every mode slot". *)
Definition reset (mm : ModeManager) : ModeManager := with_modes [] mm.

(** The mode that [getMode] returns is the object in the slot: what a
    caller does to it shows there. *)
Definition put_mode (type : ModeType) (instance : Mode) (mm : ModeManager)
  : ModeManager :=
  match find_slot type (modes mm) with
  | Some (key, _) => with_modes (map_set key (type, instance) (modes mm)) mm
  | None => mm
  end.
End ModeManager.

(** ** What a controller method leaves behind *)
Module Controller.
Import Js.

(** The calls a controller makes on the mode manager. *)
Inductive Call : Type :=
| CallGetMode (type : ModeManager.ModeType)
| CallEnableMode (type : ModeManager.ModeType) (key : string)
| CallDisableMode (type : ModeManager.ModeType) (key : string)
| CallReset.

(** The state a request runs in: the mode manager, the status set with
    [setStatus], the audit log, and the calls made on the manager. *)
Record Context : Type := mkContext {
  modeManager : ModeManager.ModeManager;
  status : option nat;
  audit : list (string * string);      (* user and message *)
  calls : list Call;
}.

Definition request (mm : ModeManager.ModeManager) : Context :=
  {| modeManager := mm; status := None; audit := []; calls := [] |}.

(** [this.setStatus(code)] *)
Definition setStatus (code : nat) (c : Context) : Context :=
  {| modeManager := modeManager c; status := Some code;
     audit := audit c; calls := calls c |}.

(** [logger.audit(req.user, message)] *)
Definition logger_audit (user message : string) (c : Context) : Context :=
  {| modeManager := modeManager c; status := status c;
     audit := audit c ++ [(user, message)]; calls := calls c |}.

(** A call on the manager that changes it. *)
Definition call (what : Call)
           (f : ModeManager.ModeManager -> ModeManager.ModeManager)
           (c : Context) : Context :=
  {| modeManager := f (modeManager c); status := status c;
     audit := audit c; calls := calls c ++ [what] |}.

(** [k] between double quotes. *)
Definition quoted (k : string) : string :=
  String (Ascii.ascii_of_nat 34)
         (k +:+ String (Ascii.ascii_of_nat 34) EmptyString).
End Controller.

(** ** ModeController *)
Module ModeController.
Import Js Entities Controller.

Record EnableModeParams : Type := mkParams {
  lightsGroupIds : list nat;
  screenIds : list nat;
  audioIds : list nat;
}.

Record CenturionParams : Type := mkCenturionParams {
  centurion_base : EnableModeParams;   (* extends EnableModeParams *)
  centurionName : string;
}.

Record TimeTrailRaceParams : Type := mkRaceParams {
  race_base : EnableModeParams;        (* extends EnableModeParams *)
  sessionName : string;
}.

(** [findEntities(entity, ids)] *)
Definition findEntities (entity : EntityClass) (ids : list nat)
           (db : DataSource) : list SubscribeEntity :=
  find_in entity ids db.

Record Resolved : Type := mkResolved {
  lights : list SubscribeEntity;
  screens : list SubscribeEntity;
  audios : list SubscribeEntity;
}.

(** [mapBodyToEntities(params)] *)
Definition mapBodyToEntities (params : EnableModeParams) (db : DataSource)
  : Resolved :=
  let lights := findEntities LightsGroup (lightsGroupIds params) db in
  let screens := findEntities Screen (lightsGroupIds params) db in
  let audios := findEntities Audio (lightsGroupIds params) db in
  {| lights := lights; screens := screens; audios := audios |}.

(** What the interface [EnableModeParams] and the names of the three
    results say: each class resolved from its own list of ids. *)
Definition resolve_per_class (params : EnableModeParams) (db : DataSource)
  : Resolved :=
  {| lights := findEntities LightsGroup (lightsGroupIds params) db;
     screens := findEntities Screen (screenIds params) db;
     audios := findEntities Audio (audioIds params) db |}.

Section Tapes.
(** [tapes], the table of known tapes, not part of the files at hand. *)
Variable tapes : list MixTape.MixTape.

(** [disableAllModes(req)] *)
Definition disableAllModes (user : string) (c : Context)
  : Completion unit * Context :=
  let c := logger_audit user "Disable all modes." c in
  let c := call CallReset ModeManager.reset c in
  (Return (), c).

(** [enableCenturion(req, params)] *)
Definition enableCenturion (user : string) (params : CenturionParams)
           (db : DataSource) (c : Context) : Completion string * Context :=
  let c := logger_audit user
             ("Enable Centurion mode with tape "
              +:+ quoted (centurionName params) +:+ ".") c in
  let r := mapBodyToEntities (centurion_base params) db in
  let centurionMode := CenturionMode.new (lights r) (screens r) (audios r) in
  let centurionMode :=
    CenturionMode.initialize (ModeManager.musicEmitter (modeManager c))
                             centurionMode in
  let tape :=
    snd <$> list_find (fun t => MixTape.name t = centurionName params) tapes in
  match tape with
  | None =>
      let c := setStatus 404 c in
      (Return "Centurion tape not found.", c)
  | Some tape =>
      let centurionMode := CenturionMode.loadTape tape centurionMode in
      let c := call (CallEnableMode ModeManager.CenturionModeClass "centurion")
                 (ModeManager.enableMode ModeManager.CenturionModeClass
                    (ModeManager.Centurion centurionMode) "centurion") c in
      let c := setStatus 204 c in
      (Return "", c)
  end.

(** [disableCenturion(req)] *)
Definition disableCenturion (user : string) (c : Context)
  : Completion unit * Context :=
  let c := logger_audit user "Disable Centurion mode." c in
  let c := call (CallDisableMode ModeManager.CenturionModeClass "centurion")
             (ModeManager.disableMode ModeManager.CenturionModeClass
                "centurion") c in
  (Return (), c).

(** [enableTimeTrailRace(req, params)] *)
Definition enableTimeTrailRace (user : string) (params : TimeTrailRaceParams)
           (db : DataSource) (c : Context) : Completion string * Context :=
  let c := logger_audit user
             ("Enable Spoelbakkenrace mode for "
              +:+ quoted (sessionName params) +:+ ".") c in
  let r := mapBodyToEntities (race_base params) db in
  let timeTrailRaceMode :=
    ModeManager.race_new (lights r) (screens r) (audios r) in
  let timeTrailRaceMode :=
    ModeManager.race_initialize
      (ModeManager.backofficeSyncEmitter (modeManager c))
      (sessionName params) timeTrailRaceMode in
  let c := call (CallEnableMode ModeManager.TimeTrailRaceModeClass
                   "time-trail-racing")
             (ModeManager.enableMode ModeManager.TimeTrailRaceModeClass
                (ModeManager.TimeTrailRace timeTrailRaceMode)
                "time-trail-racing") c in
  let c := setStatus 204 c in
  (Return "", c).

(** [disableTimeTrailRacing(req)] *)
Definition disableTimeTrailRacing (user : string) (c : Context)
  : Completion unit * Context :=
  let c := logger_audit user "Disable Spoelbakkenrace mode." c in
  let c := call (CallDisableMode ModeManager.TimeTrailRaceModeClass
                   "time-trail-racing")
             (ModeManager.disableMode ModeManager.TimeTrailRaceModeClass
                "time-trail-racing") c in
  (Return (), c).
End Tapes.
End ModeController.

(** ** CenturionController *)
Module CenturionController.
Import Js Controller.
Import ModeManager (CenturionModeClass, Centurion, TimeTrailRace).

Record SkipCenturionRequest : Type := mkSkip { seconds : Q }.

Record CenturionResponse : Type := mkResponse {
  name : string;
  startTime : Q;
  playing : bool;
}.

(** [this.modeManager.getMode(CenturionMode) as CenturionMode] *)
Definition getMode (c : Context) : option ModeManager.Mode * Context :=
  (ModeManager.getMode CenturionModeClass (modeManager c),
   call (CallGetMode CenturionModeClass) (fun mm => mm) c).

(** The instance after a method ran on it, seen through the manager. *)
Definition mutated (mode : CenturionMode.CenturionMode) (c : Context)
  : Context :=
  {| modeManager :=
       ModeManager.put_mode CenturionModeClass (Centurion mode)
         (modeManager c);
     status := status c; audit := audit c; calls := calls c |}.

(** A mode that is not a [CenturionMode] lacks what the controller
    reaches for behind its cast. *)
Definition not_a_centurion {A : Type} : Completion A :=
  Throw (TypeError "not a CenturionMode").

(** [getCenturion()] *)
Definition getCenturion (c : Context) : Completion CenturionResponse * Context :=
  let '(mode, c) := getMode c in
  match mode with
  | None => (Throw (ModeDisabledError "Centurion not enabled"), c)
  | Some (Centurion mode) =>
      match CenturionMode.tape mode with
      | Some tape =>
          (Return {| name := MixTape.name tape;
                     startTime := CenturionMode.startTime mode;
                     playing := CenturionMode.playing mode |}, c)
      | None => (Throw (TypeError "mode.tape is undefined"), c)
      end
  | Some (TimeTrailRace _) => (not_a_centurion, c)
  end.

(** [startCenturion(req)], the clock at [now] *)
Definition startCenturion (user : string) (now : Q) (c : Context)
  : Completion string * Context :=
  let '(mode, c) := getMode c in
  match mode with
  | None => (Throw (ModeDisabledError "Centurion not enabled"), c)
  | Some (Centurion mode) =>
      let c := logger_audit user "Start Centurion." c in
      let '(started, mode) := CenturionMode.start now mode in
      let c := mutated mode c in
      if negb started then
        let c := setStatus 428 c in
        (Return "Centurion not yet fully initialized. Please wait and try again later", c)
      else
        let c := setStatus 204 c in
        (Return "", c)
  | Some (TimeTrailRace _) => (not_a_centurion, c)
  end.

(** The number as the template literal prints it, left open. *)
Section Printing.
Variable show : Q -> string.

(** [skipCenturion(req, { seconds })], the clock at [now] *)
Definition skipCenturion (user : string) (now : Q)
           (body : SkipCenturionRequest) (c : Context)
  : Completion string * Context :=
  let '(mode, c) := getMode c in
  match mode with
  | None => (Throw (ModeDisabledError "Centurion not enabled"), c)
  | Some (Centurion mode) =>
      let c := logger_audit user
                 ("Skip Centurion to " +:+ quoted (show (seconds body))
                  +:+ " seconds.") c in
      let mode := CenturionMode.skip now (seconds body) mode in
      let c := mutated mode c in
      let c := setStatus 204 c in
      (Return "", c)
  | Some (TimeTrailRace _) => (not_a_centurion, c)
  end.
End Printing.

(** [stopCenturion(req)] *)
Definition stopCenturion (user : string) (c : Context)
  : Completion string * Context :=
  let '(mode, c) := getMode c in
  match mode with
  | None => (Throw (ModeDisabledError "Centurion not enabled"), c)
  | Some (Centurion mode) =>
      let c := logger_audit user "Stop Centurion." c in
      let mode := CenturionMode.stop mode in
      let c := mutated mode c in
      let c := setStatus 204 c in
      (Return "", c)
  | Some (TimeTrailRace _) => (not_a_centurion, c)
  end.
End CenturionController.

(** ** HandlerManager: the static side, and more vocabulary *)
Module HandlerManagerStatic.
Import Js Entities HandlerManager.

(** [HandlerManager.getInstance(io?)], over the static field
    [instance]; the result is the completion and the field afterwards. *)
Definition getInstance (server : option Server)
           (instance : option HandlerManager)
  : Completion HandlerManager * option HandlerManager :=
  match instance, server with
  | None, None =>
      (Throw (Error "Not all parameters provided to initialize"), None)
  | None, Some server' => let m := new server' in (Return m, Some m)
  | Some m, _ => (Return m, Some m)
  end.

(** What the restore loop of [init] makes of one handler of class
    [cls], the rows [rs] taken in turn. *)
Definition restore_into (rs : list SubscribeEntity) (cls : EntityClass)
           (h : BaseHandler) : BaseHandler :=
  foldl (fun h r =>
           if decide (ctor r = cls /\ hname h = currentHandler r)
           then registerEntity h r else h)
        h rs.

(** The messages that one pass of a connect or disconnect callback
    sends to socket [sid]: one for each registration of [who]. *)
Definition notices (who sid ev : string)
           (regs : list (string * SubscribeEntity)) : list Emit :=
  (fun p => mkEmit sid ev [p.1]) <$> filter (fun p => name p.2 = who) regs.
End HandlerManagerStatic.

(** ** ServerSettingsStore: the accessors *)
Module ServerSettings.
Import Js ServerSettingsStore.

(** [isInitialized()] *)
Definition isInitialized (store : ServerSettingsStore) : Completion unit :=
  if initialized store then Return ()
  else Throw (Error "ServerSettingsStore has not been initialized.").

(** [getSetting(key)]; a key that [this.settings] lacks reads as
    [undefined]. *)
Definition getSetting (k : string) (store : ServerSettingsStore)
  : Completion (option string) :=
  _ ← isInitialized store; Return (settings store !! k).

(** [setSetting(key, value)]: the completion and the store afterwards.
    [findOne] yields [null] for a key without row, and the assignment to
    [setting!.value] then throws. *)
Definition setSetting (k v : string) (store : ServerSettingsStore)
  : Completion ServerSetting * ServerSettingsStore :=
  match isInitialized store with
  | Throw e => (Throw e, store)
  | Return _ =>
      match find_setting k (repo store) with
      | None =>
          (Throw (TypeError "Cannot set properties of null"), store)
      | Some setting =>
          let setting := mkSetting (key setting) v in
          (Return setting,
           {| initialized := initialized store;
              repo := repo_save setting (repo store);
              settings := settings store |})
      end
  end.

(** The rows that [initialize] adds: one for each default whose key the
    fetched settings lack. *)
Definition missing (defaults : list (string * string))
           (fetched : list ServerSetting) : list ServerSetting :=
  (fun p => mkSetting p.1 p.2)
    <$> filter (fun p => find_setting p.1 fetched = None) defaults.
End ServerSettings.

(** ** CenturionController: the list of tapes *)
Module CenturionTapes.
Import MixTape.

(** [MixTapeResponse] *)
Record MixTapeResponse : Type := mkTapeResponse {
  name : string;
  coverUrl : string;
  events : list FeedEvent;             (* (HornEvent | SongEvent)[] *)
  horns : nat;
  duration : Q;
}.

(** [getCenturionTapes()] over the table [tapes], which is not part of
    the files at hand. *)
Definition getCenturionTapes (tapes : list MixTape) : list MixTapeResponse :=
  (fun t =>
     {| name := MixTape.name t;
        coverUrl := MixTape.coverUrl t;
        events := filter (fun e => type e ∈ ["horn"; "song"]) (feed t);
        horns := length (filter (fun e => type e = "horn") (feed t));
        duration := MixTape.duration t |}) <$> tapes.
End CenturionTapes.

(** ** HttpApiException *)
Module HttpApiException.
Import Js.

Definition is_upper (c : Ascii.ascii) : bool :=
  (65 <=? Ascii.nat_of_ascii c)%nat && (Ascii.nat_of_ascii c <=? 90)%nat.
Definition is_lower (c : Ascii.ascii) : bool :=
  (97 <=? Ascii.nat_of_ascii c)%nat && (Ascii.nat_of_ascii c <=? 122)%nat.

(** [s.replace(pattern, ' $1')], the pattern being global and matching
    one letter of A-Z followed by as many letters of a-z as follow: the
    scan from the left; [in_match] tells whether it is inside a match,
    where lower case letters extend it. *)
Fixpoint replace_words (in_match : bool) (s : string) : string :=
  match s with
  | EmptyString => EmptyString
  | String c rest =>
      if in_match && is_lower c then String c (replace_words true rest)
      else if is_upper c then
        String Ascii.Space (String c (replace_words true rest))
      else String c (replace_words false rest)
  end.

(** White space as [trim] sees it, among the characters below 128. *)
Definition is_space (c : Ascii.ascii) : bool :=
  let n := Ascii.nat_of_ascii c in
  (n =? 32)%nat || ((9 <=? n)%nat && (n <=? 13)%nat).

Fixpoint trim_start (s : string) : string :=
  match s with
  | EmptyString => EmptyString
  | String c rest => if is_space c then trim_start rest else s
  end.

(** The string without its trailing white space. *)
Fixpoint trim_end (s : string) : string :=
  match s with
  | EmptyString => EmptyString
  | String c rest =>
      match trim_end rest with
      | EmptyString => if is_space c then EmptyString else String c EmptyString
      | rest' => String c rest'
      end
  end.

(** [s.trim()] *)
Definition trim (s : string) : string := trim_end (trim_start s).

Record HttpApiException : Type := mkException {
  statusCode : nat;
  message : string;
  name : string;
}.

Section Enum.
(** [HttpStatusCode[statusCode]], the reverse mapping of the enum of
    axios, which is not part of the files at hand. *)
Variable HttpStatusCode : nat -> option string.

(** [new HttpApiException(statusCode, message?)]; for a number that the
    enum lacks the reverse mapping is [undefined] and [.replace]
    throws. *)
Definition new (code : nat) (msg : option string)
  : Completion HttpApiException :=
  match HttpStatusCode code with
  | None => Throw (TypeError "Cannot read properties of undefined")
  | Some text =>
      let statusCodeMessage := trim (replace_words false text) in
      Return {| statusCode := code;
                message := default statusCodeMessage msg;
                name := statusCodeMessage |}
  end.
End Enum.

(** A space put before every capital letter. *)
Fixpoint space_capitals (s : string) : string :=
  match s with
  | EmptyString => EmptyString
  | String c rest =>
      if is_upper c then String Ascii.Space (String c (space_capitals rest))
      else String c (space_capitals rest)
  end.

(** A word as the pattern takes it: a capital followed by lower case
    letters. *)
Definition word (w : string) : Prop :=
  match w with
  | EmptyString => False
  | String c rest =>
      is_upper c = true
      /\ Forall (fun x => is_lower x = true) (String.list_ascii_of_string rest)
  end.

(** The words put together, without and with a space between them. *)
Definition glue (ws : list string) : string := foldr String.append "" ws.

Fixpoint spaced (ws : list string) : string :=
  match ws with
  | [] => ""
  | [w] => w
  | w :: ws' => w +:+ " " +:+ spaced ws'
  end.
End HttpApiException.

(* ===================================================================== *)
(** * Part II: properties                                                 *)
(* ===================================================================== *)

(** ** The handler manager: bindings, boot restore, connectivity *)
Section HandlerBindings.
Import Js Entities HandlerManager.

Lemma map_get_set_eq {K V : Type} `{EqDecision K} (k : K) (v : V) m :
  map_get k (map_set k v m) = Some v.
Proof.
  induction m as [|[k' v'] m IH]; simpl.
  - by rewrite decide_True.
  - destruct (decide (k = k')) as [->|Hne]; simpl.
    + by rewrite decide_True.
    + by rewrite decide_False.
Qed.

Lemma map_get_set_ne {K V : Type} `{EqDecision K} (k k' : K) (v : V) m :
  k <> k' -> map_get k' (map_set k v m) = map_get k' m.
Proof.
  intros Hne. induction m as [|[k0 v0] m IH]; simpl.
  - by rewrite decide_False.
  - destruct (decide (k = k0)) as [->|Hne0]; simpl.
    + by rewrite !decide_False.
    + by rewrite IH.
Qed.

Lemma map_get_values {K V : Type} `{EqDecision K} (k : K) (v : V) m :
  map_get k m = Some v -> v ∈ map_values m.
Proof.
  unfold map_values. induction m as [|[k0 v0] m IH]; simpl; [done|].
  destruct (decide (k = k0)); intros H.
  - injection H as ->. left.
  - right. by apply IH.
Qed.

Lemma map_values_set {K V : Type} `{EqDecision K} (k : K) (v x : V) m :
  x ∈ map_values (map_set k v m) -> x = v \/ x ∈ map_values m.
Proof.
  unfold map_values. induction m as [|[k0 v0] m IH]; simpl.
  - intros H. apply list_elem_of_singleton in H. by left.
  - destruct (decide (k = k0)); simpl; intros H.
    + apply elem_of_cons in H as [->|H]; [by left|]. right. by right.
    + apply elem_of_cons in H as [->|H]; [right; left|].
      destruct (IH H) as [->|H']; [by left|]. right. by right.
Qed.

Lemma forEach_fst {A S : Type} (f : A -> S -> A * S) (g : A -> A) :
  (forall a s, (f a s).1 = g a) ->
  forall l s, (forEach f l s).1 = g <$> l.
Proof.
  intros Hf. induction l as [|a l IH]; intros s; simpl; [done|].
  specialize (Hf a s). destruct (f a s) as [a' s1]. simpl in Hf. subst a'.
  specialize (IH s1). destruct (forEach f l s1) as [l' s2]. simpl in *.
  by rewrite IH.
Qed.

Lemma holds_removeEntity h e e' :
  holds (removeEntity h e) e' <-> holds h e' /\ id e' <> id e.
Proof.
  unfold holds, removeEntity. simpl.
  rewrite !list_elem_of_fmap. split.
  - intros (x & Hx & Hin). apply list_elem_of_filter in Hin as [Hne Hin].
    split; [by exists x | congruence].
  - intros [(x & Hx & Hin) Hne]. exists x. split; [done|].
    apply list_elem_of_filter. split; [congruence | done].
Qed.

Lemma holds_registerEntity h e e' :
  holds (registerEntity h e) e' <-> holds h e' \/ id e' = id e.
Proof.
  unfold registerEntity. destruct (decide (holds h e)) as [He|He].
  - split; [by left|]. intros [H|Heq]; [done|].
    unfold holds in *. by rewrite Heq.
  - unfold holds. simpl. rewrite fmap_app, elem_of_app. simpl.
    rewrite list_elem_of_singleton. reflexivity.
Qed.

Lemma hname_removeEntity h e : hname (removeEntity h e) = hname h.
Proof. reflexivity. Qed.

Lemma hname_registerEntity h e : hname (registerEntity h e) = hname h.
Proof. unfold registerEntity. by destruct (decide (holds h e)). Qed.

Lemma getHandlers_store_same cls hs m :
  getHandlers (Some cls) (store_handlers cls hs m)
  = match map_get cls (_handlers m) with Some _ => hs | None => [] end.
Proof.
  unfold store_handlers, getHandlers.
  destruct (map_get cls (_handlers m)) eqn:Hget; simpl.
  - by rewrite map_get_set_eq.
  - by rewrite Hget.
Qed.

Lemma getHandlers_store_other cls cls' hs m :
  cls <> cls' ->
  getHandlers (Some cls') (store_handlers cls hs m)
  = getHandlers (Some cls') m.
Proof.
  intros Hne. unfold store_handlers, getHandlers.
  destruct (map_get cls (_handlers m)) eqn:Hget; simpl; [|done].
  by rewrite map_get_set_ne.
Qed.

(** [registerHandler] stores the rebound handlers of the entity's
    class and touches nothing else but the server. *)
Lemma registerHandler_eq e n m :
  exists io',
    registerHandler e n m
    = store_handlers (ctor e)
        (rebind e n <$> getHandlers (Some (ctor e)) m) (with_io io' m).
Proof.
  unfold registerHandler.
  set (hs := getHandlers (Some (ctor e)) m).
  set (sock := sockets_get _ _).
  match goal with
  | |- context [let '(_, _) := ?X in _] => destruct X as [hs2 io'] eqn:HX
  end.
  exists io'. f_equal.
  destruct (decide (n <> "")) as [Hn|Hn].
  - apply (f_equal fst) in HX. simpl in HX. subst hs2.
    rewrite (forEach_fst _
               (fun h => if decide (hname h = n)
                         then registerEntity h e else h)).
    + rewrite <- list_fmap_compose. apply list_fmap_ext.
      intros _ h _. simpl. unfold rebind.
      destruct (decide (hname h = n)) as [Hh|Hh].
      * by rewrite decide_True.
      * rewrite decide_False; [done|]. by intros [_ ?].
    + intros h s. by destruct (decide (hname h = n)).
  - injection HX as <- _. apply list_fmap_ext.
    intros _ h _. unfold rebind. rewrite decide_False; [done|].
    by intros [? _].
Qed.

(** [registerHandler], seen through [getHandlers]. *)
Lemma getHandlers_registerHandler e n m :
  getHandlers (Some (ctor e)) (registerHandler e n m)
  = rebind e n <$> getHandlers (Some (ctor e)) m.
Proof.
  destruct (registerHandler_eq e n m) as [io' ->].
  rewrite getHandlers_store_same. simpl.
  unfold getHandlers.
  by destruct (map_get (ctor e) (_handlers m)).
Qed.

Lemma getHandlers_registerHandler_other e n m cls :
  cls <> ctor e ->
  getHandlers (Some cls) (registerHandler e n m) = getHandlers (Some cls) m.
Proof.
  intros Hne. destruct (registerHandler_eq e n m) as [io' ->].
  by rewrite getHandlers_store_other.
Qed.

Lemma holds_rebind e n h e' :
  holds (rebind e n h) e'
  <-> if decide (id e' = id e) then n <> "" /\ hname h = n else holds h e'.
Proof.
  unfold rebind. destruct (decide (n <> "" /\ hname h = n)) as [Hn|Hn].
  - rewrite holds_registerEntity, holds_removeEntity.
    destruct (decide (id e' = id e)); tauto.
  - rewrite holds_removeEntity.
    destruct (decide (id e' = id e)); tauto.
Qed.

Lemma hname_rebind e n h : hname (rebind e n h) = hname h.
Proof.
  unfold rebind. destruct (decide _); [by rewrite hname_registerEntity | done].
Qed.

(** Among handlers of distinct names, one name selects at most one,
    and exactly one if it occurs. *)
Lemma filter_by_name_length (n : string) (hs : list BaseHandler) :
  NoDup (hname <$> hs) ->
  length (filter (fun h => hname h = n) hs) <= 1.
Proof.
  induction hs as [|h hs IH]; simpl; [lia|].
  rewrite NoDup_cons. intros [Hnotin Hnd].
  rewrite filter_cons. destruct (decide (hname h = n)) as [Hh|Hh].
  - simpl. assert (filter (fun h0 => hname h0 = n) hs = []) as ->; [|simpl; lia].
    destruct (filter (fun h0 => hname h0 = n) hs) as [|x xs] eqn:Hf; [done|].
    exfalso. apply Hnotin.
    assert (Hx : x ∈ filter (fun h0 => hname h0 = n) hs)
      by (rewrite Hf; left).
    apply list_elem_of_filter in Hx as [Hxn Hx].
    apply list_elem_of_fmap. exists x. split; [congruence | done].
  - by apply IH.
Qed.

Lemma filter_by_name_exists (n : string) (hs : list BaseHandler) :
  NoDup (hname <$> hs) -> n ∈ hname <$> hs ->
  exists h, filter (fun h => hname h = n) hs = [h] /\ hname h = n.
Proof.
  intros Hnd Hin.
  apply list_elem_of_fmap in Hin as (h & -> & Hin).
  pose proof (filter_by_name_length (hname h) hs Hnd) as Hlen.
  assert (Hh : h ∈ filter (fun h0 => hname h0 = hname h) hs)
    by (apply list_elem_of_filter; done).
  destruct (filter (fun h0 => hname h0 = hname h) hs) as [|x [|y xs]].
  - by apply elem_of_nil in Hh.
  - apply list_elem_of_singleton in Hh as <-. by exists h.
  - simpl in Hlen. lia.
Qed.

Lemma filter_fmap_holds (P : BaseHandler -> Prop) `{!forall h, Decision (P h)}
      (f : BaseHandler -> BaseHandler) (e : SubscribeEntity)
      (hs : list BaseHandler) :
  (forall h, h ∈ hs -> holds (f h) e <-> P h) ->
  filter (fun h => holds h e) (f <$> hs) = f <$> filter P hs.
Proof.
  induction hs as [|h hs IH]; intros HP; [done|].
  rewrite fmap_cons, !filter_cons.
  rewrite IH by (intros h' Hh'; apply HP; by right).
  specialize (HP h (list_elem_of_here _ _)).
  destruct (decide (holds (f h) e)), (decide (P h)); try tauto; done.
Qed.

Lemma names_ok_lookup cls m :
  names_ok m ->
  NoDup (hname <$> getHandlers (Some cls) m)
  /\ "" ∉ hname <$> getHandlers (Some cls) m.
Proof.
  intros Hok. unfold getHandlers.
  destruct (map_get cls (_handlers m)) as [hs|] eqn:Hget; simpl.
  - apply map_get_values in Hget.
    unfold names_ok in Hok. rewrite Forall_forall in Hok. by apply Hok.
  - split; [constructor | apply not_elem_of_nil].
Qed.

Lemma holders_registerHandler_same e n m e' :
  ctor e' = ctor e -> id e' = id e ->
  holders e' (registerHandler e n m)
  = rebind e n <$> filter (fun h => n <> "" /\ hname h = n)
                          (getHandlers (Some (ctor e)) m).
Proof.
  intros Hc Hi. unfold holders. rewrite Hc, getHandlers_registerHandler.
  apply filter_fmap_holds. intros h _.
  rewrite holds_rebind. by rewrite decide_True.
Qed.

(** C1. For an entity [e] and a name [n] that is the name of a handler
    registered for [e]'s class, [registerHandler(e, n)] followed by
    [getHandlers(class)] shows [e] held by exactly one handler, the one
    named [n], and by no other handler of the class; after
    [registerHandler(e, "")] no handler of the class holds [e].  The
    handler table is one whose names are distinct within a class and
    never empty, as the constructor builds it. *)
Theorem C1_registerHandler_then_getHandlers
        (m : HandlerManager) (e : SubscribeEntity) (n : string) :
  names_ok m ->
  (n ∈ hname <$> getHandlers (Some (ctor e)) m ->
     (exists h, holders e (registerHandler e n m) = [h] /\ hname h = n) /\
     (forall h, h ∈ getHandlers (Some (ctor e)) (registerHandler e n m) ->
                holds h e <-> hname h = n)) /\
  (n = "" -> holders e (registerHandler e n m) = []).
Proof.
  intros Hok. destruct (names_ok_lookup (ctor e) m Hok) as [Hnd Hne].
  split.
  - intros Hin. assert (Hn : n <> "") by (intros ->; done).
    split.
    + rewrite holders_registerHandler_same by done.
      destruct (filter_by_name_exists n _ Hnd Hin) as (h & Hf & Hh).
      exists (rebind e n h). rewrite hname_rebind. split; [|done].
      rewrite (list_filter_iff _ (fun h => hname h = n)) by tauto.
      by rewrite Hf.
    + intros h'. rewrite getHandlers_registerHandler, list_elem_of_fmap.
      intros (h & -> & _). rewrite holds_rebind, hname_rebind.
      rewrite decide_True by done. tauto.
  - intros ->. rewrite holders_registerHandler_same by done.
    rewrite (list_filter_iff _ (fun _ => False)) by tauto.
    generalize (getHandlers (Some (ctor e)) m). intros l.
    induction l as [|x l IH]; [done|].
    rewrite filter_cons_False by tauto. exact IH.
Qed.

(** *** The at-most-one invariant *)

Lemma filter_length_mono {A : Type} (P Q : A -> Prop)
      `{!forall x, Decision (P x)} `{!forall x, Decision (Q x)} (l : list A) :
  (forall x, x ∈ l -> P x -> Q x) ->
  length (filter P l) <= length (filter Q l).
Proof.
  induction l as [|x l IH]; intros HPQ; [done|].
  rewrite !filter_cons.
  assert (IH' : length (filter P l) <= length (filter Q l)).
  { apply IH. intros y Hy. apply HPQ. by right. }
  specialize (HPQ x (list_elem_of_here _ _)).
  destruct (decide (P x)), (decide (Q x)); simpl; try lia. tauto.
Qed.

Lemma holders_store_same e cls hs m :
  ctor e = cls -> is_Some (map_get cls (_handlers m)) ->
  holders e (store_handlers cls hs m) = filter (fun h => holds h e) hs.
Proof.
  intros <- [old Hget]. unfold holders.
  by rewrite getHandlers_store_same, Hget.
Qed.

Lemma holders_store_other e cls hs m :
  ctor e <> cls -> holders e (store_handlers cls hs m) = holders e m.
Proof.
  intros Hne. unfold holders. by rewrite getHandlers_store_other.
Qed.

Lemma names_ok_with_io s m : names_ok (with_io s m) <-> names_ok m.
Proof. reflexivity. Qed.

Lemma names_ok_store cls hs m :
  names_ok m ->
  hname <$> hs = hname <$> getHandlers (Some cls) m ->
  names_ok (store_handlers cls hs m).
Proof.
  intros Hok Hnames.
  pose proof (names_ok_lookup cls m Hok) as Hcls.
  unfold store_handlers.
  destruct (map_get cls (_handlers m)) eqn:Hget; [|done].
  unfold names_ok in *. simpl. rewrite Forall_forall in *.
  intros x Hx. apply map_values_set in Hx as [->|Hx]; [|by apply Hok].
  by rewrite Hnames.
Qed.

Lemma names_ok_registerHandler e n m :
  names_ok m -> names_ok (registerHandler e n m).
Proof.
  intros Hok. destruct (registerHandler_eq e n m) as [io' ->].
  apply names_ok_store; [done|]. simpl.
  change (getHandlers (Some (ctor e)) (with_io io' m))
    with (getHandlers (Some (ctor e)) m).
  rewrite <- list_fmap_compose. apply list_fmap_ext.
  intros _ h _. apply hname_rebind.
Qed.

Lemma at_most_one_registerHandler e n m :
  names_ok m -> at_most_one m -> at_most_one (registerHandler e n m).
Proof.
  intros Hok Hone e'.
  destruct (names_ok_lookup (ctor e) m Hok) as [Hnd _].
  destruct (decide (ctor e' = ctor e)) as [Hc|Hc].
  - destruct (decide (id e' = id e)) as [Hi|Hi].
    + rewrite holders_registerHandler_same by done.
      rewrite length_fmap.
      etransitivity; [|apply (filter_by_name_length n _ Hnd)].
      apply filter_length_mono. tauto.
    + unfold holders. rewrite Hc, getHandlers_registerHandler.
      rewrite (filter_fmap_holds (fun h => holds h e')).
      * rewrite length_fmap. specialize (Hone e'). unfold holders in Hone.
        by rewrite Hc in Hone.
      * intros h _. rewrite holds_rebind. by rewrite decide_False.
  - unfold holders. rewrite getHandlers_registerHandler_other by done.
    apply Hone.
Qed.

Lemma holders_same_key e e' m :
  ctor e = ctor e' -> id e = id e' -> holders e m = holders e' m.
Proof.
  intros Hc Hi. unfold holders, holds. rewrite Hc.
  apply list_filter_iff. intros h. by rewrite Hi.
Qed.

Lemma rows_distinct_key db r r' :
  rows_distinct db -> r ∈ db -> r' ∈ db ->
  ctor r = ctor r' -> id r = id r' -> r = r'.
Proof.
  unfold rows_distinct. induction db as [|x db IH]; simpl.
  - intros _ H. by apply elem_of_nil in H.
  - rewrite NoDup_cons, !elem_of_cons, list_elem_of_fmap.
    intros [Hx Hnd] [->|Hr] [->|Hr'] Hc Hi; [done| | |by apply IH].
    + exfalso. apply Hx. exists r'. split; [congruence | done].
    + exfalso. apply Hx. exists r. split; [congruence | done].
Qed.

Lemma holds_restored r h e' :
  holds (if decide (hname h = currentHandler r)
         then registerEntity h r else h) e'
  <-> holds h e' \/ (hname h = currentHandler r /\ id e' = id r).
Proof.
  destruct (decide (hname h = currentHandler r)).
  - rewrite holds_registerEntity. tauto.
  - tauto.
Qed.

Lemma hname_restoreHandlers r hs :
  hname <$> restoreHandlers r hs = hname <$> hs.
Proof.
  unfold restoreHandlers. rewrite <- list_fmap_compose.
  apply list_fmap_ext. intros _ h _. simpl.
  destruct (decide _); [apply hname_registerEntity | done].
Qed.

(** The invariant that the restore loop of [init] maintains. *)
Lemma restore_instance_inv db r m m' :
  rows_distinct db -> r ∈ db ->
  names_ok m -> at_most_one m -> agrees db m ->
  restore_instance r m = Return m' ->
  names_ok m' /\ at_most_one m' /\ agrees db m'.
Proof.
  intros Hdb Hr Hok Hone Hagr. unfold restore_instance.
  destruct (map_get (ctor r) (_handlers m)) as [hs|] eqn:Hget; [|done].
  intros [= <-].
  assert (Hhs : getHandlers (Some (ctor r)) m = hs)
    by (unfold getHandlers; by rewrite Hget).
  destruct (names_ok_lookup (ctor r) m Hok) as [Hnd _]. rewrite Hhs in Hnd.
  (* the holders of any entity, after the row is restored *)
  assert (Hsame : forall e', ctor e' = ctor r -> id e' = id r ->
            forall h', h' ∈ holders e' (store_handlers (ctor r)
                                          (restoreHandlers r hs) m) ->
            hname h' = currentHandler r).
  { intros e' Hc Hi h'. rewrite holders_store_same by (rewrite ?Hget; done).
    unfold restoreHandlers.
    rewrite (filter_fmap_holds
               (fun h => holds h e' \/
                         (hname h = currentHandler r /\ id e' = id r)))
      by (intros; apply holds_restored).
    rewrite list_elem_of_fmap. intros (h & -> & Hh).
    apply list_elem_of_filter in Hh as [Hh Hin].
    assert (hname h = currentHandler r) as <-.
    { destruct Hh as [Hh|[? _]]; [|done].
      apply (Hagr r h Hr). rewrite <- (holders_same_key e' r) by done.
      unfold holders. rewrite Hc, Hhs. by apply list_elem_of_filter. }
    destruct (decide _); [apply hname_registerEntity | done]. }
  assert (Hother : forall e', ~ (ctor e' = ctor r /\ id e' = id r) ->
            exists f, (forall h, hname (f h) = hname h) /\
              holders e' (store_handlers (ctor r) (restoreHandlers r hs) m)
              = f <$> holders e' m).
  { intros e' Hkey.
    exists (fun h => if decide (ctor e' = ctor r)
                     then (if decide (hname h = currentHandler r)
                           then registerEntity h r else h)
                     else h).
    split.
    { intros h. repeat destruct (decide _); try done.
      apply hname_registerEntity. }
    destruct (decide (ctor e' = ctor r)) as [Hc|Hc].
    - rewrite holders_store_same by (rewrite ?Hget; done).
      unfold restoreHandlers, holders. rewrite Hc, Hhs.
      apply filter_fmap_holds. intros h _.
      rewrite holds_restored. tauto.
    - rewrite holders_store_other by done. by rewrite list_fmap_id. }
  split; [|split].
  - apply names_ok_store; [done|]. by rewrite Hhs, hname_restoreHandlers.
  - intros e'.
    destruct (decide (ctor e' = ctor r /\ id e' = id r)) as [[Hc Hi]|Hkey].
    + specialize (Hsame e' Hc Hi).
      rewrite holders_store_same in * by (rewrite ?Hget; done).
      etransitivity;
        [|apply (filter_by_name_length (currentHandler r)
                   (restoreHandlers r hs))].
      * apply filter_length_mono. intros h Hh Hholds.
        apply Hsame. by apply list_elem_of_filter.
      * by rewrite hname_restoreHandlers.
    + destruct (Hother e' Hkey) as (f & _ & ->).
      rewrite length_fmap. apply Hone.
  - intros r' h' Hr' Hh'.
    destruct (decide (ctor r' = ctor r /\ id r' = id r)) as [[Hc Hi]|Hkey].
    + rewrite (rows_distinct_key db r' r) by done. by eapply Hsame.
    + destruct (Hother r' Hkey) as (f & Hf & Heq). rewrite Heq in Hh'.
      apply list_elem_of_fmap in Hh' as (h & -> & Hh).
      rewrite Hf. by apply Hagr.
Qed.

Lemma restore_instances_inv db rs m m' :
  rows_distinct db -> (forall r, r ∈ rs -> r ∈ db) ->
  names_ok m -> at_most_one m -> agrees db m ->
  restore_instances rs m = Return m' ->
  names_ok m' /\ at_most_one m' /\ agrees db m'.
Proof.
  intros Hdb. revert m.
  induction rs as [|r rs IH]; intros m Hin Hok Hone Hagr; simpl.
  - by intros [= <-].
  - destruct (restore_instance r m) as [m1|] eqn:H1; [|done]. simpl.
    destruct (restore_instance_inv db r m m1) as (? & ? & ?); try done.
    { apply Hin. left. }
    apply IH; try done. intros r' Hr'. apply Hin. by right.
Qed.

Lemma restore_classes_inv db keys m m' :
  rows_distinct db ->
  names_ok m -> at_most_one m -> agrees db m ->
  restore_classes keys db m = Return m' ->
  names_ok m' /\ at_most_one m' /\ agrees db m'.
Proof.
  intros Hdb. revert m.
  induction keys as [|k keys IH]; intros m Hok Hone Hagr; simpl.
  - by intros [= <-].
  - destruct (restore_instances (find k db) m) as [m1|] eqn:H1; [|done].
    simpl.
    destruct (restore_instances_inv db (find k db) m m1) as (? & ? & ?);
      try done.
    { intros r Hr. unfold find in Hr.
      by apply list_elem_of_filter in Hr as [_ ?]. }
    by apply IH.
Qed.

(** [init] keeps the invariant wherever the bindings agree with the
    rows; at boot they do, nothing being bound. *)
Lemma init_inv w w' :
  rows_distinct (dataSource w) ->
  names_ok (manager w) -> at_most_one (manager w) ->
  agrees (dataSource w) (manager w) ->
  init w = Return w' ->
  names_ok (manager w') /\ at_most_one (manager w')
  /\ agrees (dataSource w') (manager w').
Proof.
  intros Hdb Hok Hone Hagr. unfold init.
  destruct (initialized (manager w)); [done|].
  destruct (restore_classes _ _ _) as [m1|] eqn:H1; [|done].
  intros [= <-]. simpl. by eapply restore_classes_inv.
Qed.

(** *** Boot *)

Lemma holders_nil e m :
  Forall (fun h => entities h = []) (getHandlers (Some (ctor e)) m) ->
  holders e m = [].
Proof.
  unfold holders. induction (getHandlers (Some (ctor e)) m) as [|h hs IH].
  - done.
  - rewrite Forall_cons. intros [Hh Hhs].
    rewrite filter_cons_False; [by apply IH|].
    unfold holds. rewrite Hh. apply not_elem_of_nil.
Qed.

Lemma holders_new e server : holders e (new server) = [].
Proof.
  apply holders_nil. unfold getHandlers.
  destruct (ctor e); simpl; repeat constructor.
Qed.

Lemma names_ok_new server : names_ok (new server).
Proof. apply (bool_decide_unpack _). by vm_compute. Qed.

Lemma at_most_one_new server : at_most_one (new server).
Proof. intros e. rewrite holders_new. simpl. lia. Qed.

Lemma agrees_new db server : agrees db (new server).
Proof. intros r h _. rewrite holders_new. by intros ?%elem_of_nil. Qed.

Lemma knows_all_store cls hs m :
  knows_all m -> knows_all (store_handlers cls hs m).
Proof.
  intros Hall c. unfold store_handlers.
  destruct (map_get cls (_handlers m)) eqn:Hget; [|apply Hall]. simpl.
  destruct (decide (cls = c)) as [->|Hne].
  - rewrite map_get_set_eq. by eexists.
  - rewrite map_get_set_ne by done. apply Hall.
Qed.

Lemma initialized_store cls hs m :
  initialized (store_handlers cls hs m) = initialized m.
Proof.
  unfold store_handlers. by destruct (map_get cls (_handlers m)).
Qed.

Lemma restore_instances_returns rs m :
  knows_all m ->
  exists m', restore_instances rs m = Return m' /\ knows_all m'
             /\ initialized m' = initialized m.
Proof.
  revert m. induction rs as [|r rs IH]; intros m Hall; simpl.
  - by exists m.
  - unfold restore_instance. destruct (Hall (ctor r)) as [hs ->]. simpl.
    destruct (IH (store_handlers (ctor r) (restoreHandlers r hs) m))
      as (m' & Hm' & Hall' & Hinit); [by apply knows_all_store|].
    exists m'. by rewrite Hinit, initialized_store.
Qed.

Lemma restore_classes_returns keys db m :
  knows_all m ->
  exists m', restore_classes keys db m = Return m' /\ knows_all m'
             /\ initialized m' = initialized m.
Proof.
  revert m. induction keys as [|k keys IH]; intros m Hall; simpl.
  - by exists m.
  - destruct (restore_instances_returns (find k db) m Hall)
      as (m1 & -> & Hall1 & Hinit1). simpl.
    destruct (IH m1 Hall1) as (m' & Hm' & Hall' & Hinit).
    exists m'. by rewrite Hinit, Hinit1.
Qed.

Lemma knows_all_new server : knows_all (new server).
Proof. intros []; by eexists. Qed.

(** [init] returns whenever the flag is down, and leaves it down. *)
Lemma init_returns w :
  initialized (manager w) = false -> knows_all (manager w) ->
  exists w', init w = Return w'
             /\ initialized (manager w') = false /\ knows_all (manager w').
Proof.
  intros Hflag Hall. unfold init. rewrite Hflag.
  destruct (restore_classes_returns
              (map_keys (_handlers (manager w))) (dataSource w) (manager w)
              Hall) as (m & Hm & Hall' & Hinit).
  rewrite Hm. simpl. eexists. split; [done|]. simpl.
  by rewrite Hinit.
Qed.

(** At boot [init] returns. *)
Lemma init_boot_returns server db :
  exists w, init (boot server db) = Return w.
Proof.
  destruct (init_returns (boot server db)) as (w & Hw & _);
    [done | apply knows_all_new |].
  by exists w.
Qed.

(** *** Connectivity tracking *)

Lemma forEach_snd {A S : Type} (f : A -> S -> A * S) (l : list A) (s : S) :
  (forEach f l s).2 = foldl (fun s a => (f a s).2) s l.
Proof.
  revert s. induction l as [|a l IH]; intros s; simpl; [done|].
  specialize (IH (f a s).2).
  destruct (f a s) as [a' s1]. simpl in *.
  by destruct (forEach f l s1) as [l' s2].
Qed.

Lemma foldl_bind {A B S : Type} (g : S -> B -> S) (k : A -> list B)
      (l : list A) (s : S) :
  foldl g s (l ≫= k) = foldl (fun s a => foldl g s (k a)) s l.
Proof.
  revert s. induction l as [|a l IH]; intros s; simpl; [done|].
  by rewrite foldl_app, IH.
Qed.

Lemma foldl_ext_fun {A S : Type} (g g' : S -> A -> S) (l : list A) (s : S) :
  (forall s a, g s a = g' s a) -> foldl g s l = foldl g' s l.
Proof.
  intros Hg. revert s. induction l as [|a l IH]; intros s; simpl; [done|].
  by rewrite Hg, IH.
Qed.

Lemma foldl_inv {A S : Type} (g : S -> A -> S) (Q : S -> Prop) (l : list A) :
  (forall a s, a ∈ l -> Q s -> Q (g s a)) ->
  forall s, Q s -> Q (foldl g s l).
Proof.
  induction l as [|a l IH]; intros Hg s Hs; simpl; [done|].
  apply IH.
  - intros x s' Hx. apply Hg. by right.
  - apply Hg; [left | done].
Qed.

Lemma foldl_hit {A S : Type} (g : S -> A -> S) (I Q : S -> Prop)
      (l : list A) (a : A) :
  a ∈ l ->
  (forall x s, I s -> I (g s x)) ->
  (forall x s, Q s -> Q (g s x)) ->
  (forall s, I s -> Q (g s a)) ->
  forall s, I s -> Q (foldl g s l).
Proof.
  intros Ha HI HQ Hhit. induction l as [|x l IH]; intros s Hs; simpl.
  - by apply elem_of_nil in Ha.
  - apply elem_of_cons in Ha as [<-|Ha].
    + apply foldl_inv; [intros; by apply HQ | by apply Hhit].
    + apply IH; [done | by apply HI].
Qed.

Lemma updated_key e r : ctor (updated e r) = ctor e /\ id (updated e r) = id e.
Proof. unfold updated. by destruct (socketId e). Qed.

Lemma updated_socketId e r :
  socketId (updated e r)
  = match socketId e with Some s => Some s | None => socketId r end.
Proof. unfold updated. by destruct (socketId e) eqn:He. Qed.

Lemma row_save cls i x db :
  row cls i (save x db)
  = if decide (ctor x = cls /\ id x = i)
    then Some (match row cls i db with
               | Some r => updated x r
               | None => x
               end)
    else row cls i db.
Proof.
  induction db as [|r db IH]; simpl.
  - by destruct (decide _).
  - destruct (decide (same_row x r)) as [[Hc Hi]|Hrow]; simpl.
    + destruct (updated_key x r) as [-> ->].
      destruct (decide (ctor x = cls /\ id x = i)) as [[Hk1 Hk2]|Hk].
      * rewrite decide_True; [done|]. split; congruence.
      * rewrite decide_False; [done|]. rewrite <- Hc, <- Hi. exact Hk.
    + destruct (decide (ctor r = cls /\ id r = i)) as [[Hc Hi]|Hr].
      * rewrite decide_False; [done|]. intros [Hc' Hi'].
        apply Hrow. split; congruence.
      * exact IH.
Qed.

(** The effect on server and data source of a scan is that of its
    visits in turn. *)
Lemma scan_snd {S : Type}
      (visit : string -> SubscribeEntity -> S -> SubscribeEntity * S)
      hs (s : S) :
  (scan visit hs s).2
  = foldl (fun s p => (visit p.1 p.2 s).2) s (registrations hs).
Proof.
  unfold scan, registrations. rewrite forEach_snd, foldl_bind.
  apply foldl_ext_fun. intros s1 [cls handlers]. simpl.
  rewrite (surjective_pairing (forEach _ handlers s1)). simpl.
  rewrite forEach_snd, foldl_bind.
  apply foldl_ext_fun. intros s2 h. simpl.
  rewrite (surjective_pairing (forEach _ (entities h) s2)). simpl.
  rewrite forEach_snd, foldl_bind.
  apply foldl_ext_fun. intros s3 e. done.
Qed.

Lemma scan_fst {S : Type}
      (visit : string -> SubscribeEntity -> S -> SubscribeEntity * S)
      who v hs (s : S) :
  (forall hn e s, (visit hn e s).1 = retag_entity who v e) ->
  (scan visit hs s).1 = retag who v hs.
Proof.
  intros Hvisit. unfold scan, retag. apply forEach_fst.
  intros [cls handlers] s1. simpl.
  rewrite (surjective_pairing (forEach _ handlers s1)). simpl. f_equal.
  apply forEach_fst. intros h s2.
  rewrite (surjective_pairing (forEach _ (entities h) s2)). simpl.
  unfold retag_handler. f_equal.
  apply forEach_fst. intros e s3. apply Hvisit.
Qed.

Section Visit.
Variables (who : string) (v : option string) (ev sid : string).
Variable visit : string -> SubscribeEntity -> Server * DataSource
                 -> SubscribeEntity * (Server * DataSource).
Hypothesis visit_eq : forall hn e s,
  visit hn e s
  = if decide (name e = who)
    then (set_socketId v e,
          (emit (sockets_get sid s.1) ev [hn] s.1,
           save (set_socketId v e) s.2))
    else (e, s).

Lemma scan_retags hs s : (scan visit hs s).1 = retag who v hs.
Proof.
  apply scan_fst. intros hn e s'. rewrite visit_eq.
  unfold retag_entity. by destruct (decide _).
Qed.

(** The row of a matched entity after the scan: it holds [v] if [v] is
    a socket id; if [v] is [undefined] it holds what it held before. *)
Lemma scan_persists hs s hn e :
  (hn, e) ∈ registrations hs -> name e = who ->
  exists r, row (ctor e) (id e) (scan visit hs s).2.2 = Some r
            /\ socketId r = match v with
                            | Some sock => Some sock
                            | None => stored_socketId (ctor e) (id e) s.2
                            end.
Proof.
  intros Hin Hname. rewrite scan_snd. destruct v as [sock|] eqn:Hv.
  - apply (foldl_hit _ (fun _ => True)
             (fun s => exists r, row (ctor e) (id e) s.2 = Some r
                                 /\ socketId r = Some sock)
             _ (hn, e)); try done.
    + intros [hn' e'] s' (r & Hr & Hs). simpl. rewrite visit_eq.
      destruct (decide (name e' = who)); [|by exists r]. simpl.
      rewrite row_save. destruct (decide _); [|by exists r].
      eexists. split; [done|]. by destruct (row _ _ _).
    + intros s' _. simpl. rewrite visit_eq, decide_True by done. simpl.
      rewrite row_save, decide_True by done.
      eexists. split; [done|]. by destruct (row _ _ _).
  - set (old := stored_socketId (ctor e) (id e) s.2).
    assert (Hstep : forall (x : string * SubscribeEntity) s',
      stored_socketId (ctor e) (id e) s'.2 = old ->
      stored_socketId (ctor e) (id e) (visit x.1 x.2 s').2.2 = old).
    { intros [hn' e'] s' Hs'. simpl. rewrite visit_eq.
      destruct (decide (name e' = who)); [|done]. simpl.
      unfold stored_socketId in *. rewrite row_save.
      destruct (decide _); [|done]. simpl.
      destruct (row (ctor e) (id e) s'.2) as [r|]; [|done].
      change (socketId (updated (set_socketId None e') r) = old).
      by rewrite updated_socketId. }
    apply (foldl_hit _
             (fun s' => stored_socketId (ctor e) (id e) s'.2 = old)
             (fun s' => exists r, row (ctor e) (id e) s'.2 = Some r
                                  /\ socketId r = old)
             _ (hn, e)); try done.
    + intros [hn' e'] s' (r & Hr & Hs).
      assert (Hold : stored_socketId (ctor e) (id e) s'.2 = old)
        by (unfold stored_socketId; by rewrite Hr).
      pose proof (Hstep (hn', e') s' Hold) as Hnew.
      revert Hnew. simpl. rewrite visit_eq.
      destruct (decide (name e' = who)); [|intros _; by exists r]. simpl.
      unfold stored_socketId. rewrite row_save.
      destruct (decide _); [|intros _; by exists r].
      simpl. intros Hnew. by eexists.
    + intros s' Hs'. pose proof (Hstep (hn, e) s' Hs') as Hnew.
      revert Hnew. simpl. rewrite visit_eq, decide_True by done. simpl.
      unfold stored_socketId. rewrite row_save, decide_True by done.
      simpl. intros Hnew. by eexists.
Qed.

Lemma scan_keeps_rows hs s cls i :
  (forall hn e, (hn, e) ∈ registrations hs -> name e = who ->
                ~ (ctor e = cls /\ id e = i)) ->
  row cls i (scan visit hs s).2.2 = row cls i s.2.
Proof.
  intros Hkey. rewrite scan_snd.
  apply (foldl_inv _ (fun s' => row cls i s'.2 = row cls i s.2));
    [|done].
  intros [hn e] s' Hin Hs'. simpl. rewrite visit_eq.
  destruct (decide (name e = who)) as [Hname|]; [|done]. simpl.
  rewrite row_save, decide_False; [done|]. by apply (Hkey hn e).
Qed.

Lemma sockets_emit sock e a s : sockets (emit sock e a s) = sockets s.
Proof. by destruct sock. Qed.

Lemma scan_pushes hs s hn e :
  (hn, e) ∈ registrations hs -> name e = who -> sid ∈ sockets s.1 ->
  mkEmit sid ev [hn] ∈ emitted (scan visit hs s).2.1.
Proof.
  intros Hin Hname Hsid. rewrite scan_snd.
  apply (foldl_hit _ (fun s' => sid ∈ sockets s'.1)
           (fun s' => mkEmit sid ev [hn] ∈ emitted s'.1)
           _ (hn, e)); try done.
  - intros [hn' e'] s' Hs'. simpl. rewrite visit_eq.
    destruct (decide (name e' = who)); [|done]. simpl.
    by rewrite sockets_emit.
  - intros [hn' e'] s' Hs'. simpl. rewrite visit_eq.
    destruct (decide (name e' = who)); [|done]. simpl.
    destruct (sockets_get sid s'.1); simpl; [|done].
    apply elem_of_app. by left.
  - intros s' Hs'. simpl. rewrite visit_eq, decide_True by done. simpl.
    unfold sockets_get. rewrite decide_True by done. simpl.
    apply elem_of_app. right. left.
Qed.

Lemma scan_silent hs s :
  sid ∉ sockets s.1 -> (scan visit hs s).2.1 = s.1.
Proof.
  intros Hsid. rewrite scan_snd.
  apply (foldl_inv _ (fun s' => s'.1 = s.1)); [|done].
  intros [hn e] s' _ Hs'. simpl. rewrite visit_eq.
  destruct (decide (name e = who)); [|done]. simpl.
  unfold sockets_get. rewrite Hs', decide_False by done. done.
Qed.
End Visit.

(** What either callback does, [v] being the socket id it leaves in the
    matched entities and [ev] the message it sends. *)
Lemma run_callback_tracks cb user sid v ev w :
  (cb = OnConnect /\ v = Some sid /\ ev = "handler_set") \/
  (cb = OnDisconnect /\ v = None /\ ev = "handler_remove") ->
  let w' := run_callback cb user sid w in
  _handlers (manager w') = retag (uname user) v (_handlers (manager w)) /\
  (forall hn e,
      (hn, e) ∈ registrations (_handlers (manager w)) ->
      name e = uname user ->
      (exists r, row (ctor e) (id e) (dataSource w') = Some r
                 /\ socketId r
                    = match v with
                      | Some sock => Some sock
                      | None => stored_socketId (ctor e) (id e) (dataSource w)
                      end) /\
      (sid ∈ sockets (io (manager w)) ->
       mkEmit sid ev [hn] ∈ emitted (io (manager w')))) /\
  (forall cls i,
      (forall hn e, (hn, e) ∈ registrations (_handlers (manager w)) ->
                    name e = uname user -> ~ (ctor e = cls /\ id e = i)) ->
      row cls i (dataSource w') = row cls i (dataSource w)) /\
  (sid ∉ sockets (io (manager w)) -> io (manager w') = io (manager w)) /\
  listeners w' = listeners w.
Proof.
  intros Hcb. unfold run_callback.
  set (visit := match cb with
                | OnConnect => connect_visit user sid
                | OnDisconnect => disconnect_visit user sid
                end).
  assert (Hvisit : forall hn e s,
    visit hn e s
    = if decide (name e = uname user)
      then (set_socketId v e,
            (emit (sockets_get sid s.1) ev [hn] s.1,
             save (set_socketId v e) s.2))
      else (e, s)).
  { destruct Hcb as [(-> & -> & ->)|(-> & -> & ->)]; done. }
  set (s0 := (io (manager w), dataSource w)).
  pose proof (scan_retags _ _ _ _ visit Hvisit (_handlers (manager w)) s0)
    as Hretag.
  pose proof (scan_persists _ _ _ _ visit Hvisit (_handlers (manager w)) s0)
    as Hpersist.
  pose proof (scan_pushes _ _ _ _ visit Hvisit (_handlers (manager w)) s0)
    as Hpush.
  pose proof (scan_keeps_rows _ _ _ _ visit Hvisit (_handlers (manager w)) s0)
    as Hrows.
  pose proof (scan_silent _ _ _ _ visit Hvisit (_handlers (manager w)) s0)
    as Hsilent.
  destruct (scan visit (_handlers (manager w)) s0) as [hs [io' db']].
  simpl in *. split; [done|]. split; [|split; [|split]].
  - intros hn e Hin Hname.
    split; [by apply (Hpersist hn e) | intros Hsid; by apply (Hpush hn e)].
  - intros cls i Hkey. by apply Hrows.
  - exact Hsilent.
  - done.
Qed.

Lemma emit_event_connect user sid w :
  subscribed w ->
  emit_event "connect" user sid w = run_callback OnConnect user sid w.
Proof. unfold subscribed, emit_event. by intros ->. Qed.

Lemma emit_event_disconnect user sid w :
  subscribed w ->
  emit_event "disconnect" user sid w = run_callback OnDisconnect user sid w.
Proof. unfold subscribed, emit_event. by intros ->. Qed.

Lemma init_subscribes w0 w :
  listeners w0 = [] -> init w0 = Return w -> subscribed w.
Proof.
  unfold init, subscribed. intros Hl.
  destruct (initialized (manager w0)); [done|].
  destruct (restore_classes _ _ _); [|done].
  intros [= <-]. simpl. by rewrite Hl.
Qed.

(** C5. [init] on a fresh socket connection emitter subscribes the
    manager's two callbacks.  From then on a connect event for
    (identity, connection id) leaves every registered entity whose name
    is the identity with that connection id, every other registered
    entity as it was, persists the matched entities with that id, and
    sends 'handler_set' with the handler's name to the connection,
    provided the server knows a socket of that id ([?.emit] sends
    nothing otherwise).  A disconnect event clears the connection id of
    the matched entity objects and sends 'handler_remove', but it does
    not clear what is persisted: the callback assigns [undefined], which
    [save] leaves out of the update, so the row of a matched entity
    keeps the socket id it held before the event.  Rows of entities that
    no matched registration stands for are untouched. *)
Theorem C5_connectivity_tracking :
  (forall w0 w, listeners w0 = [] -> init w0 = Return w -> subscribed w) /\
  (forall w user sid,
      subscribed w ->
      let wc := emit_event "connect" user sid w in
      let wd := emit_event "disconnect" user sid w in
      (* connect *)
      (_handlers (manager wc)
       = retag (uname user) (Some sid) (_handlers (manager w)) /\
       (forall hn e,
           (hn, e) ∈ registrations (_handlers (manager w)) ->
           name e = uname user ->
           (exists r, row (ctor e) (id e) (dataSource wc) = Some r
                      /\ socketId r = Some sid) /\
           (sid ∈ sockets (io (manager w)) ->
            mkEmit sid "handler_set" [hn] ∈ emitted (io (manager wc)))) /\
       (forall cls i,
           (forall hn e, (hn, e) ∈ registrations (_handlers (manager w)) ->
                         name e = uname user ->
                         ~ (ctor e = cls /\ id e = i)) ->
           row cls i (dataSource wc) = row cls i (dataSource w)) /\
       subscribed wc) /\
      (* disconnect *)
      (_handlers (manager wd)
       = retag (uname user) None (_handlers (manager w)) /\
       (forall hn e,
           (hn, e) ∈ registrations (_handlers (manager w)) ->
           name e = uname user ->
           (exists r, row (ctor e) (id e) (dataSource wd) = Some r
                      /\ socketId r
                         = stored_socketId (ctor e) (id e) (dataSource w)) /\
           (sid ∈ sockets (io (manager w)) ->
            mkEmit sid "handler_remove" [hn] ∈ emitted (io (manager wd)))) /\
       (forall cls i,
           (forall hn e, (hn, e) ∈ registrations (_handlers (manager w)) ->
                         name e = uname user ->
                         ~ (ctor e = cls /\ id e = i)) ->
           row cls i (dataSource wd) = row cls i (dataSource w)) /\
       subscribed wd)).
Proof.
  split; [exact init_subscribes|].
  intros w user sid Hsub wc wd. subst wc wd.
  rewrite emit_event_connect, emit_event_disconnect by done.
  split.
  - destruct (run_callback_tracks OnConnect user sid (Some sid)
                "handler_set" w) as (H1 & H2 & H3 & _ & H5); [by left|].
    split; [done|]. split; [exact H2|]. split; [exact H3|].
    unfold subscribed. by rewrite H5.
  - destruct (run_callback_tracks OnDisconnect user sid None
                "handler_remove" w) as (H1 & H2 & H3 & _ & H5); [by right|].
    split; [done|]. split; [exact H2|]. split; [exact H3|].
    unfold subscribed. by rewrite H5.
Qed.

(** *** The invariant along a run *)

Lemma map_get_retag who v cls hs :
  map_get cls (retag who v hs)
  = option_map (fmap (M := list) (retag_handler who v)) (map_get cls hs).
Proof.
  unfold retag. induction hs as [|[c handlers] hs IH]; simpl; [done|].
  by destruct (decide (cls = c)).
Qed.

Lemma holds_retag_handler who v h e :
  holds (retag_handler who v h) e <-> holds h e.
Proof.
  unfold holds, retag_handler. simpl.
  rewrite <- list_fmap_compose.
  assert (id ∘ retag_entity who v <$> entities h = id <$> entities h)
    as ->; [|done].
  apply list_fmap_ext. intros _ x _. simpl. unfold retag_entity.
  by destruct (decide _).
Qed.

Lemma run_callback_handlers cb user sid w :
  exists v,
    _handlers (manager (run_callback cb user sid w))
    = retag (uname user) v (_handlers (manager w)).
Proof.
  destruct cb.
  - exists (Some sid).
    by apply (run_callback_tracks OnConnect user sid (Some sid)
                "handler_set" w); left.
  - exists None.
    by apply (run_callback_tracks OnDisconnect user sid None
                "handler_remove" w); right.
Qed.

Lemma retag_keeps_invariant who v m m' :
  _handlers m' = retag who v (_handlers m) ->
  names_ok m /\ at_most_one m -> names_ok m' /\ at_most_one m'.
Proof.
  intros Hhs [Hok Hone]. split.
  - unfold names_ok, map_values in *. rewrite Hhs. unfold retag.
    rewrite <- list_fmap_compose. rewrite Forall_fmap in *.
    eapply Forall_impl; [exact Hok|]. intros [cls hs]. simpl.
    assert (hname <$> (retag_handler who v <$> hs) = hname <$> hs) as ->;
      [|done].
    rewrite <- list_fmap_compose. by apply list_fmap_ext.
  - intros e. specialize (Hone e). unfold holders, getHandlers in *.
    rewrite Hhs, map_get_retag.
    destruct (map_get (ctor e) (_handlers m)) as [hs|]; simpl in *; [|lia].
    rewrite (filter_fmap_holds (fun h => holds h e))
      by (intros; apply holds_retag_handler).
    by rewrite length_fmap.
Qed.

Lemma emit_event_keeps_invariant ev user sid w :
  names_ok (manager w) /\ at_most_one (manager w) ->
  names_ok (manager (emit_event ev user sid w))
  /\ at_most_one (manager (emit_event ev user sid w)).
Proof.
  unfold emit_event.
  apply (foldl_inv _ (fun w => names_ok (manager w)
                               /\ at_most_one (manager w))).
  intros [ev' cb] w' _ Hinv. destruct (decide (ev' = ev)); [|done].
  destruct (run_callback_handlers cb user sid w') as [v Hv].
  by eapply retag_keeps_invariant.
Qed.

Lemma reachable_invariant w :
  reachable w -> names_ok (manager w) /\ at_most_one (manager w).
Proof.
  induction 1 as [server db w Hdb Hinit | w e n _ [Hok Hone]
                 | w ev user sid _ IH].
  - destruct (init_inv (boot server db) w) as (? & ? & _); try done.
    + apply names_ok_new.
    + apply at_most_one_new.
    + apply agrees_new.
  - simpl. split.
    + by apply names_ok_registerHandler.
    + by apply at_most_one_registerHandler.
  - by apply emit_event_keeps_invariant.
Qed.

(** C2. Every operation that changes bindings keeps each entity with
    at most one handler of its class: [registerHandler], for every
    entity and name; the boot restore of [init], from the manager that
    the constructor built and for every table of rows with distinct
    primary keys, where it also returns; [init] from any world whose
    bindings agree with the persisted rows; and therefore every world
    that a run reaches. *)
Theorem C2_at_most_one_handler_preserved :
  (forall m e n,
      names_ok m -> at_most_one m ->
      names_ok (registerHandler e n m)
      /\ at_most_one (registerHandler e n m)) /\
  (forall server db,
      rows_distinct db ->
      exists w, init (boot server db) = Return w
                /\ names_ok (manager w) /\ at_most_one (manager w)) /\
  (forall w w',
      rows_distinct (dataSource w) ->
      names_ok (manager w) -> at_most_one (manager w) ->
      agrees (dataSource w) (manager w) ->
      init w = Return w' ->
      names_ok (manager w') /\ at_most_one (manager w')) /\
  (forall w, reachable w -> at_most_one (manager w)).
Proof.
  split; [|split; [|split]].
  - intros m e n Hok Hone. split.
    + by apply names_ok_registerHandler.
    + by apply at_most_one_registerHandler.
  - intros server db Hdb.
    destruct (init_boot_returns server db) as [w Hw]. exists w.
    split; [done|]. apply reachable_invariant.
    by apply (reachable_boot server db).
  - intros w w' Hdb Hok Hone Hagr Hinit.
    destruct (init_inv w w') as (? & ? & _); done.
  - intros w Hw. by apply reachable_invariant.
Qed.

Lemma C1_registerHandler_then_getHandlers_witness :
  let m := new (mkServer [] []) in
  let e := mkEntity LightsGroup 1 "par-left" "" None in
  names_ok m /\
  (exists h, holders e (registerHandler e "SetEffectsHandler" m) = [h]
             /\ hname h = "SetEffectsHandler").
Proof.
  intros m e.
  assert (Hok : names_ok m) by (apply (bool_decide_unpack _); by vm_compute).
  split; [exact Hok|].
  apply (C1_registerHandler_then_getHandlers m e "SetEffectsHandler" Hok).
  apply (bool_decide_unpack _). by vm_compute.
Defined.

Lemma C2_at_most_one_handler_preserved_witness :
  let m := new (mkServer [] []) in
  let e := mkEntity LightsGroup 1 "par-left" "" None in
  names_ok m /\ at_most_one m /\
  at_most_one (registerHandler e "SetEffectsHandler" m).
Proof.
  intros m e.
  assert (Hok : names_ok m) by (apply (bool_decide_unpack _); by vm_compute).
  assert (Hone : at_most_one m) by apply at_most_one_new.
  split; [exact Hok|]. split; [exact Hone|].
  apply (proj1 C2_at_most_one_handler_preserved m e "SetEffectsHandler"
           Hok Hone).
Defined.

Lemma C5_connectivity_tracking_witness :
  let speaker := mkEntity Audio 1 "speaker" "SimpleAudioHandler" None in
  let w0 := boot (mkServer ["s9"] []) [speaker] in
  listeners w0 = [] /\
  exists w,
    init w0 = Return w /\ subscribed w /\
    let wc := emit_event "connect" (mkUser "speaker") "s9" w in
    let wd := emit_event "disconnect" (mkUser "speaker") "s9" wc in
    mkEmit "s9" "handler_set" ["SimpleAudioHandler"]
      ∈ emitted (io (manager wc)) /\
    registrations (_handlers (manager wd))
    = [("SimpleAudioHandler", speaker)] /\
    exists r, row Audio 1 (dataSource wd) = Some r
              /\ socketId r = Some "s9".
Proof.
  intros speaker w0. split; [reflexivity|].
  destruct (init w0) as [w|] eqn:Hinit; [|by vm_compute in Hinit].
  exists w.
  assert (Hsub : subscribed w)
    by exact (proj1 C5_connectivity_tracking w0 w eq_refl Hinit).
  split; [reflexivity|]. split; [exact Hsub|].
  assert (Hw : w = ltac:(let t := eval vm_compute in (init w0) in
                         match t with Return ?x => exact x end)).
  { vm_compute in Hinit. by injection Hinit as <-. }
  intros wc wd.
  destruct (proj2 C5_connectivity_tracking w (mkUser "speaker") "s9" Hsub)
    as [(_ & Hmatched & _ & Hsubc) _].
  fold wc in Hmatched, Hsubc.
  destruct (proj2 C5_connectivity_tracking wc (mkUser "speaker") "s9" Hsubc)
    as [_ (_ & Hcleared & _)].
  fold wd in Hcleared.
  split; [|split].
  - apply (Hmatched "SimpleAudioHandler" speaker).
    + rewrite Hw. apply (bool_decide_unpack _). by vm_compute.
    + reflexivity.
    + rewrite Hw. apply (bool_decide_unpack _). by vm_compute.
  - unfold wd, wc. rewrite Hw. by vm_compute.
  - destruct (Hcleared "SimpleAudioHandler"
                (set_socketId (Some "s9") speaker)) as [(r & Hr & Hs) _].
    + unfold wc. rewrite Hw. apply (bool_decide_unpack _). by vm_compute.
    + reflexivity.
    + exists r. split; [exact Hr|]. rewrite Hs.
      unfold wc. rewrite Hw. by vm_compute.
Defined.
End HandlerBindings.

(** ** Initialising the singletons twice *)
Section DoubleInitialisation.
Import Js.

Lemma find_setting_is_Some k l :
  is_Some (ServerSettingsStore.find_setting k l)
  <-> exists s, s ∈ l /\ ServerSettingsStore.key s = k.
Proof.
  unfold ServerSettingsStore.find_setting. split.
  - destruct (list_find _ l) as [[i x]|] eqn:Hf; [|by intros [? ?]].
    intros _. apply list_find_Some in Hf as (Hi & Hx & _).
    exists x. split; [by eapply list_elem_of_lookup_2 | done].
  - intros (s & Hs & Hk).
    destruct (list_find_elem_of (fun s => ServerSettingsStore.key s = k)
                l s Hs Hk) as [y ->].
    by eexists.
Qed.

Lemma save_missing_covers entries fetched k :
  k ∈ entries.*1 ->
  is_Some (ServerSettingsStore.find_setting k
             (fetched ++ ServerSettingsStore.save_missing entries fetched)).
Proof.
  induction entries as [|[k0 v0] rest IH]; intros Hk.
  - by apply elem_of_nil in Hk.
  - simpl in Hk. apply elem_of_cons in Hk. simpl.
    destruct (ServerSettingsStore.find_setting k0 fetched) as [s0|] eqn:Hf.
    + destruct Hk as [->|Hk]; [|by apply IH].
      apply find_setting_is_Some.
      destruct (proj1 (find_setting_is_Some k0 fetched)) as (s & Hs & Hks);
        [by eexists|].
      exists s. split; [|done]. apply elem_of_app. by left.
    + apply find_setting_is_Some.
      destruct Hk as [->|Hk].
      * exists (ServerSettingsStore.mkSetting k0 v0).
        split; [|done]. apply elem_of_app. right. left.
      * destruct (proj1 (find_setting_is_Some k _) (IH Hk))
          as (s & Hs & Hks).
        exists s. split; [|done].
        apply elem_of_app in Hs as [Hs|Hs]; apply elem_of_app;
          [by left | right; by right].
Qed.

Lemma collect_returns keys all map :
  (forall k, k ∈ keys -> is_Some (ServerSettingsStore.find_setting k all)) ->
  exists map', ServerSettingsStore.collect keys all map = Return map'.
Proof.
  revert map. induction keys as [|k keys IH]; intros map Hall; simpl.
  - by eexists.
  - destruct (Hall k) as [s ->]; [left|].
    apply IH. intros k' Hk'. apply Hall. by right.
Qed.

(** A store that has not been initialised initialises, whatever the
    table holds and in whatever order the saves arrive. *)
Lemma initialize_returns defaults arrival store :
  ServerSettingsStore.initialized store = false ->
  exists store',
    ServerSettingsStore.initialize defaults arrival store = Return store'
    /\ ServerSettingsStore.initialized store' = true.
Proof.
  intros Hinit. unfold ServerSettingsStore.initialize. rewrite Hinit.
  pose proof (save_missing_covers defaults (ServerSettingsStore.repo store))
    as Hcov.
  destruct (collect_returns (defaults.*1)
              (ServerSettingsStore.repo store
               ++ ServerSettingsStore.save_missing defaults
                    (ServerSettingsStore.repo store)) ∅ Hcov) as [map Hmap].
  cbn zeta. rewrite Hmap. simpl. by eexists.
Qed.

(** Once [initialize] has returned, calling it again throws. *)
Lemma initialize_twice_throws defaults arrival arrival' store store' :
  ServerSettingsStore.initialize defaults arrival store = Return store' ->
  ServerSettingsStore.initialize defaults arrival' store'
  = Throw (Error "ServerSettingsStore already initialized!").
Proof.
  unfold ServerSettingsStore.initialize at 1.
  destruct (ServerSettingsStore.initialized store); [done|]. cbn zeta.
  destruct (ServerSettingsStore.collect _ _ _) as [map|]; [|done].
  intros [= <-]. reflexivity.
Qed.

(** C6. Calling the initialisation of a singleton manager a second
    time, after a first one succeeded, should raise an error.
    [ServerSettingsStore.initialize] does ([initialize_twice_throws]);
    [HandlerManager.init] does not: it tests [initialized] but never
    assigns it, so the second call returns as well, restores the
    bindings once more and subscribes its two callbacks a second
    time. *)
Theorem C6_HandlerManager_init_twice_returns :
  forall server db,
    exists w w',
      HandlerManager.init (HandlerManager.boot server db) = Return w /\
      HandlerManager.init w = Return w' /\
      HandlerManager.initialized (HandlerManager.manager w') = false /\
      HandlerManager.listeners w'
      = [ ("connect", HandlerManager.OnConnect);
          ("disconnect", HandlerManager.OnDisconnect);
          ("connect", HandlerManager.OnConnect);
          ("disconnect", HandlerManager.OnDisconnect) ].
Proof.
  intros server db.
  destruct (init_returns (HandlerManager.boot server db))
    as (w & Hw & Hflag & Hall); [done | apply knows_all_new |].
  destruct (init_returns w Hflag Hall) as (w' & Hw' & Hflag' & _).
  exists w, w'. split; [done|]. split; [done|]. split; [done|].
  pose proof (init_subscribes (HandlerManager.boot server db) w eq_refl Hw)
    as Hsub.
  unfold HandlerManager.subscribed in Hsub.
  unfold HandlerManager.init in Hw'. rewrite Hflag in Hw'.
  destruct (HandlerManager.restore_classes _ _ _); [|done].
  injection Hw' as <-. simpl. by rewrite Hsub.
Qed.
End DoubleInitialisation.

(** ** The tape scheduler *)
Section TapeScheduler.
Import MixTape CenturionMode.
Local Open Scope Q_scope.

Lemma due_first_after e l : due e l = first_after e l.
Proof.
  induction l as [|c l IH]; simpl; [done|].
  destruct (Qlt_le_dec e (timestamp c)) as [Hlt|Hle].
  - destruct (Qle_bool (timestamp c) e) eqn:Hb; [|done].
    apply Qle_bool_iff in Hb. lra.
  - apply Qle_bool_iff in Hle. by rewrite Hle, IH.
Qed.

Lemma first_after_le_length x l : (first_after x l <= length l)%nat.
Proof.
  induction l as [|c l IH]; simpl; [lia|].
  destruct (Qlt_le_dec x (timestamp c)); lia.
Qed.

(** Counting on from where an earlier count stopped. *)
Lemma first_after_resume x e l :
  x <= e ->
  (first_after x l + first_after e (drop (first_after x l) l))%nat
  = first_after e l.
Proof.
  intros Hxe. induction l as [|c l IH]; simpl; [done|].
  destruct (Qlt_le_dec x (timestamp c)) as [Hlt|Hle]; simpl.
  - done.
  - destruct (Qlt_le_dec e (timestamp c)); [lra|]. by rewrite IH.
Qed.

(** In a tape in authored order the cues before [first_after x] are
    those with a timestamp up to [x]. *)
Lemma first_after_authored x l i c :
  authored l -> l !! i = Some c ->
  (i < first_after x l)%nat <-> timestamp c <= x.
Proof.
  intros Hl. revert i. induction Hl as [|c0 l Hl IH Hc0]; intros i Hi.
  - done.
  - simpl. destruct (Qlt_le_dec x (timestamp c0)) as [Hlt|Hle].
    + split; [lia|]. intros Hc. exfalso.
      destruct i as [|i]; simpl in Hi.
      * injection Hi as <-. lra.
      * rewrite Forall_forall in Hc0.
        assert (timestamp c0 <= timestamp c).
        { apply Hc0. by eapply list_elem_of_lookup_2. }
        lra.
    + destruct i as [|i]; simpl in Hi.
      * injection Hi as <-. split; [done | lia].
      * rewrite <- (IH i Hi). lia.
Qed.

Lemma first_after_mono x e l :
  x <= e -> (first_after x l <= first_after e l)%nat.
Proof. intros Hxe. rewrite <- (first_after_resume x e l Hxe). lia. Qed.

Lemma cues_with_playback st p e n d m :
  cues (with_playback st p e n d m) = cues m.
Proof. reflexivity. Qed.

Lemma fst_tagged (e : Q) (l : list nat) : ((fun i => (i, e)) <$> l).*1 = l.
Proof.
  induction l as [|i l IH]; [done|]. rewrite !fmap_cons. simpl. by f_equal.
Qed.

(** One tick, started where the cues up to [x] are behind. *)
Lemma tick_from x now m :
  playing m = true ->
  nextCue m = first_after x (cues m) ->
  x <= now - startTime m ->
  let e := now - startTime m in
  tick now m
  = with_playback (startTime m) true e (first_after e (cues m))
      (dispatched m
       ++ ((fun i => (i, e))
             <$> seq (first_after x (cues m))
                     (first_after e (cues m) - first_after x (cues m)))) m.
Proof.
  intros Hplay Hnext Hx e. unfold tick. rewrite Hplay, Hnext.
  fold e. rewrite due_first_after.
  pose proof (first_after_resume x e (cues m) Hx) as Hres.
  replace (first_after e (cues m) - first_after x (cues m))%nat
    with (first_after e (drop (first_after x (cues m)) (cues m))) by lia.
  by rewrite Hres.
Qed.

Lemma cues_step m ev : cues (step m ev) = cues m.
Proof.
  destruct ev; simpl; try done.
  - unfold start. by destruct (ready m && _).
  - unfold tick. by destruct (playing m).
Qed.

(** A run over a clock that does not run backwards: what it dispatches,
    and how far the elapsed time has come.  [x] is the elapsed time up
    to which the cues are behind, [prev] the clock before the run. *)
Lemma run_from evs :
  forall m x prev,
    nextCue m = first_after x (cues m) ->
    forward (prev :: clock evs) ->
    x <= elapsed m ->
    (playing m = true -> elapsed m <= prev - startTime m) ->
    exists log last,
      dispatched (run evs m) = dispatched m ++ log /\
      log.*1 = seq (first_after x (cues m))
                   (first_after last (cues m) - first_after x (cues m)) /\
      x <= last /\
      (forall e, e ∈ readings evs m -> e <= last) /\
      (readings evs m = [] /\ last = x \/ last ∈ readings evs m) /\
      (forall i e, (i, e) ∈ log ->
         e ∈ readings evs m /\ (i < first_after e (cues m))%nat).
Proof.
  induction evs as [|ev evs IH]; intros m x prev Hnext Hfwd Hx Hplay.
  - exists [], x. simpl. rewrite app_nil_r, Nat.sub_diag.
    repeat split; try done.
    + lra.
    + by intros e ?%elem_of_nil.
    + by left.
    + by apply elem_of_nil in H.
    + by apply elem_of_nil in H.
  - destruct ev as [|now| |now].
    + (* the collaborators get ready *)
      destruct (IH (prepared m) x prev) as (log & last & H); try done.
      by exists log, last.
    + (* start *)
      apply StronglySorted_inv in Hfwd as [Hfwd Hprev].
      assert (Hpn : prev <= now) by (by inversion Hprev).
      specialize (IH (start now m).2 x now).
      change (run (Start now :: evs) m) with (run evs (start now m).2).
      change (readings (Start now :: evs) m)
        with (readings evs (start now m).2).
      unfold start in *. destruct (ready m && _).
      * destruct IH as (log & last & H); try done.
        { simpl. intros _. lra. }
        by exists log, last.
      * destruct IH as (log & last & H); try done.
        { simpl. intros Hp. specialize (Hplay Hp). lra. }
        by exists log, last.
    + (* stop *)
      destruct (IH (stop m) x prev) as (log & last & H); try done.
      by exists log, last.
    + (* a turn of the loop *)
      apply StronglySorted_inv in Hfwd as [Hfwd Hprev].
      assert (Hpn : prev <= now) by (by inversion Hprev).
      change (run (Tick now :: evs) m) with (run evs (tick now m)).
      change (readings (Tick now :: evs) m)
        with ((if playing m then [now - startTime m] else [])
              ++ readings evs (tick now m)).
      destruct (playing m) eqn:Hp.
      * specialize (Hplay eq_refl).
        set (e := now - startTime m).
        assert (Hxe : x <= e) by (unfold e; lra).
        rewrite (tick_from x now m Hp Hnext Hxe). fold e.
        match goal with
        | |- context [run evs ?m'] => specialize (IH m' e now)
        end.
        rewrite cues_with_playback in IH.
        cbn [playing startTime nextCue dispatched elapsed with_playback]
          in IH.
        destruct IH as (log & last & Hlog & Hidx & Hlast & Hall & Hsome
                        & Hent);
          [done | done | lra | intros _; unfold e; lra |].
        pose proof (first_after_mono x e (cues m) Hxe) as Hm1.
        pose proof (first_after_mono e last (cues m) Hlast) as Hm2.
        exists (((fun i => (i, e))
                   <$> seq (first_after x (cues m))
                           (first_after e (cues m) - first_after x (cues m)))
                ++ log), last.
        split; [by rewrite Hlog, <- app_assoc|].
        split; [|split; [|split; [|split]]].
        -- rewrite fmap_app, Hidx, fst_tagged.
           replace (first_after last (cues m) - first_after x (cues m))%nat
             with ((first_after e (cues m) - first_after x (cues m))
                   + (first_after last (cues m) - first_after e (cues m)))%nat
             by lia.
           rewrite seq_app. do 2 f_equal. lia.
        -- lra.
        -- intros e' [->|Hin]%elem_of_cons; [done | by apply Hall].
        -- right. destruct Hsome as [[_ ->]|Hin]; [left | by right].
        -- intros i e' [Hin|Hin]%elem_of_app.
           ++ apply list_elem_of_fmap in Hin as (j & [= -> ->] & Hj).
              split; [left|]. apply elem_of_seq in Hj. lia.
           ++ destruct (Hent i e' Hin) as [Hin' Hi].
              split; [by right | done].
      * unfold tick. rewrite Hp.
        destruct (IH m x now) as (log & last & H); try done.
        { intros Hp'. congruence. }
        by exists log, last.
Qed.

Lemma clamp_bounds s : s <= clamp s /\ 0 <= clamp s.
Proof. unfold clamp. destruct (Qlt_le_dec s 0); lra. Qed.

(** A run only ever adds to what has been dispatched. *)
Lemma run_append_only evs m :
  dispatched m `prefix_of` dispatched (run evs m).
Proof.
  revert m. induction evs as [|ev evs IH]; intros m; simpl; [done|].
  etransitivity; [|apply IH]. destruct ev; simpl; try done.
  - unfold start. by destruct (ready m && _).
  - unfold tick. destruct (playing m); [|done]. simpl. by apply prefix_app_r.
Qed.

(** C9. For a loaded tape in authored order and any number of seconds
    [s]: [skip(s)] sets the elapsed time to [s] clamped to 0 from below,
    re-anchoring the start timestamp to match, and the next-cue index to
    the index of the first cue with a timestamp above [s], the cues
    before it being those with a timestamp up to [s]; it dispatches
    nothing itself and leaves the mode playing or not as it was.
    Whatever follows the skip, of the collaborators getting ready,
    [start], [stop] and turns of the scheduling loop, at clock readings
    that do not run backwards: no cue with a timestamp up to [s] is
    dispatched, no cue is dispatched twice, and a cue with a timestamp
    above [s] is dispatched exactly when some turn of the loop has found
    the mode playing and the elapsed time at or past that timestamp;
    every dispatch happens at such a turn, and what a shorter run has
    dispatched stays dispatched. *)
Theorem C9_skip_then_dispatch
        (m : CenturionMode) (t : MixTape) (now0 s : Q) (evs : list Event) :
  tape m = Some t -> authored (feed t) ->
  forward (now0 :: clock evs) ->
  let m1 := skip now0 s m in
  let m2 := run evs m1 in
  elapsed m1 = clamp s /\ 0 <= elapsed m1 /\
  now0 - startTime m1 == clamp s /\
  nextCue m1 = first_after s (feed t) /\
  (forall i c, feed t !! i = Some c ->
               (i < nextCue m1)%nat <-> timestamp c <= s) /\
  dispatched m1 = dispatched m /\
  playing m1 = playing m /\
  exists log,
    dispatched m2 = dispatched m ++ log /\
    NoDup log.*1 /\
    (forall i c,
        feed t !! i = Some c ->
        i ∈ log.*1
        <-> s < timestamp c
            /\ exists e, e ∈ readings evs m1 /\ timestamp c <= e) /\
    (forall i e,
        (i, e) ∈ log ->
        exists c, feed t !! i = Some c /\ e ∈ readings evs m1
                  /\ timestamp c <= e) /\
    (forall before after,
        evs = before ++ after ->
        dispatched (run before m1) `prefix_of` dispatched m2).
Proof.
  intros Htape Hauth Hfwd m1 m2.
  assert (Hcues : cues m = feed t) by (unfold cues; by rewrite Htape).
  assert (Hcues1 : cues m1 = feed t) by exact Hcues.
  destruct (clamp_bounds s) as [Hcl1 Hcl2].
  split; [done|]. split; [done|].
  split; [simpl; lra|].
  split; [simpl; by rewrite Hcues|].
  split.
  { intros i c Hi. simpl. rewrite Hcues. by apply first_after_authored. }
  split; [done|]. split; [done|].
  destruct (run_from evs m1 s now0) as (log & last & Hlog & Hidx & Hlast
                                         & Hall & Hsome & Hent).
  { reflexivity. }
  { done. }
  { done. }
  { simpl. intros _. lra. }
  rewrite Hcues1 in *.
  pose proof (first_after_mono s last (feed t) Hlast) as Hmono.
  exists log. split; [done|]. split; [rewrite Hidx; apply NoDup_seq|].
  split; [|split].
  - intros i c Hi. rewrite Hidx, elem_of_seq.
    pose proof (first_after_authored s (feed t) i c Hauth Hi) as Hs.
    pose proof (first_after_authored last (feed t) i c Hauth Hi) as Hl.
    split.
    + intros [H1 H2].
      assert (Hts : timestamp c <= last) by (apply Hl; lia).
      assert (Hnot : ~ timestamp c <= s) by (rewrite <- Hs; lia).
      split; [lra|].
      destruct Hsome as [[_ ->]|Hin]; [done|].
      by exists last.
    + intros [Hlt (e & Hin & He)].
      assert (Hts : timestamp c <= last)
        by (specialize (Hall e Hin); lra).
      apply Hl in Hts.
      assert (Hnot : ~ (i < first_after s (feed t))%nat)
        by (rewrite Hs; lra).
      lia.
  - intros i e Hin. destruct (Hent i e Hin) as [He Hi].
    pose proof (first_after_le_length e (feed t)) as Hlen.
    destruct (lookup_lt_is_Some_2 (feed t) i) as [c Hc]; [lia|].
    exists c. repeat split; try done.
    by apply (first_after_authored e (feed t) i c Hauth Hc).
  - intros before after ->. unfold m2, run. rewrite foldl_app.
    apply run_append_only.
Qed.

Lemma C9_skip_then_dispatch_witness :
  let t := mkTape "demo" "" ""
             [mkEvent 0 (Horn 1); mkEvent 5 (Song []); mkEvent 10 (Horn 2)]
             20 in
  let m := run [Prepared; Start 100; Tick 100; Tick 105]
             (loadTape t (initialize MusicEmitter (new [] [] []))) in
  let m2 := run [Tick 107; Tick 110; Tick 111] (skip 106 6 m) in
  playing m = true /\
  dispatched m = [(0%nat, 0); (1%nat, 5)] /\
  nextCue (skip 106 6 m) = 2%nat /\
  elapsed (skip 106 6 m) = 6 /\
  exists log, dispatched m2 = dispatched m ++ log /\ log.*1 = [2%nat].
Proof.
  intros t m m2.
  assert (Hauth : authored (feed t)).
  { repeat constructor; simpl; lra. }
  assert (Hfwd : forward (106 :: clock [Tick 107; Tick 110; Tick 111])).
  { repeat constructor; lra. }
  destruct (C9_skip_then_dispatch m t 106 6 [Tick 107; Tick 110; Tick 111]
              eq_refl Hauth Hfwd)
    as (He & _ & _ & Hn & _ & _ & _ & log & Hlog & _ & _ & _ & _).
  split; [reflexivity|]. split; [reflexivity|].
  split; [exact Hn|]. split; [exact He|].
  exists log. split; [exact Hlog|].
  assert (Hm2 : dispatched m2 = dispatched m ++ [(2%nat, 10)])
    by (by vm_compute).
  fold m2 in Hlog. rewrite Hm2 in Hlog.
  apply app_inv_head in Hlog. by rewrite <- Hlog.
Defined.
End TapeScheduler.

(** ** The controllers *)
Section Controllers.
Import Js Entities Controller.

Lemma mapBodyToEntities_uses_lights_ids params db :
  ModeController.mapBodyToEntities params db
  = {| ModeController.lights :=
         find_in LightsGroup (ModeController.lightsGroupIds params) db;
       ModeController.screens :=
         find_in Screen (ModeController.lightsGroupIds params) db;
       ModeController.audios :=
         find_in Audio (ModeController.lightsGroupIds params) db |}.
Proof. reflexivity. Qed.

(** C10. [mapBodyToEntities] should resolve the lights groups from
    [lightsGroupIds], the screens from [screenIds] and the audios from
    [audioIds].  It passes [lightsGroupIds] to all three look-ups: on a
    request for lights group 1, screen 2 and audio 3 it resolves screen 1
    and audio 1, and those are what the enabled Centurion mode holds. *)
Theorem C10_mapBodyToEntities_resolves_by_lights_ids :
  let l1 := mkEntity LightsGroup 1 "bar" "" None in
  let s1 := mkEntity Screen 1 "left" "" None in
  let s2 := mkEntity Screen 2 "right" "" None in
  let a1 := mkEntity Audio 1 "hall" "" None in
  let a3 := mkEntity Audio 3 "stage" "" None in
  let db := [l1; s1; s2; a1; a3] in
  let params := ModeController.mkParams [1] [2] [3] in
  let tape := MixTape.mkTape "demo" "" "" [] 0 in
  ModeController.mapBodyToEntities params db
  = ModeController.mkResolved [l1] [s1] [a1] /\
  ModeController.resolve_per_class params db
  = ModeController.mkResolved [l1] [s2] [a3] /\
  exists mode,
    ModeManager.getMode ModeManager.CenturionModeClass
      (modeManager
         (ModeController.enableCenturion [tape] "admin"
            (ModeController.mkCenturionParams params "demo") db
            (request ModeManager.new)).2)
    = Some (ModeManager.Centurion mode) /\
    CenturionMode.lights mode = [l1] /\
    CenturionMode.screens mode = [s1] /\
    CenturionMode.audios mode = [a1].
Proof.
  intros l1 s1 s2 a1 a3 db params tape.
  split; [by vm_compute|]. split; [by vm_compute|].
  eexists. split; [by vm_compute|]. by vm_compute.
Qed.

(** C8. When no known tape has the requested name, [enableCenturion]
    answers 404 'Centurion tape not found.' by returning, makes no call
    on the mode manager, so [enableMode] is not invoked, and leaves the
    manager with its slots as it found it. *)
Theorem C8_enableCenturion_unknown_tape
        (tapes : list MixTape.MixTape) (user : string)
        (params : ModeController.CenturionParams) (db : DataSource)
        (c : Context) :
  (forall t, t ∈ tapes ->
             MixTape.name t <> ModeController.centurionName params) ->
  let r := ModeController.enableCenturion tapes user params db c in
  r.1 = Return "Centurion tape not found." /\
  status r.2 = Some 404 /\
  calls r.2 = calls c /\
  modeManager r.2 = modeManager c /\
  map_get "centurion" (ModeManager.modes (modeManager r.2))
  = map_get "centurion" (ModeManager.modes (modeManager c)).
Proof.
  intros Hnone. unfold ModeController.enableCenturion.
  destruct (list_find _ tapes) as [[i t]|] eqn:Hfind.
  - apply list_find_Some in Hfind as (Hi & Hname & _).
    exfalso. apply (Hnone t); [by eapply list_elem_of_lookup_2 | done].
  - done.
Qed.

Lemma C8_enableCenturion_unknown_tape_witness :
  let tape := MixTape.mkTape "demo" "" "" [] 0 in
  let params :=
    ModeController.mkCenturionParams (ModeController.mkParams [] [] [])
      "other" in
  (ModeController.enableCenturion [tape] "admin" params []
     (request ModeManager.new)).1
  = Return "Centurion tape not found.".
Proof.
  intros tape params.
  apply (C8_enableCenturion_unknown_tape [tape] "admin" params []
           (request ModeManager.new)).
  intros t Ht. apply list_elem_of_singleton in Ht as ->. done.
Defined.

(** C7. While no Centurion mode is enabled, each of [getCenturion],
    [startCenturion], [skipCenturion] and [stopCenturion] throws the
    ModeDisabledError 'Centurion not enabled', which the routes declare
    as their 404, writes nothing to the audit log and leaves the mode
    manager as it was.  While one is enabled and [mode.start()] answers
    false, [startCenturion] returns, with status 428 and the text that
    asks to try again later: it does not throw, and so is not the
    mode-disabled condition. *)
Theorem C7_centurion_disabled_or_not_ready
        (mm : ModeManager.ModeManager) (user : string) (now : Q) :
  (ModeManager.getMode ModeManager.CenturionModeClass mm = None ->
   forall (show : Q -> string) (body : CenturionController.SkipCenturionRequest),
     let disabled {A} : Completion A :=
       Throw (ModeDisabledError "Centurion not enabled") in
     let quiet (c : Context) := modeManager c = mm /\ audit c = [] in
     let get := CenturionController.getCenturion (request mm) in
     let start := CenturionController.startCenturion user now (request mm) in
     let skip :=
       CenturionController.skipCenturion show user now body (request mm) in
     let stop := CenturionController.stopCenturion user (request mm) in
     (get.1 = disabled /\ quiet get.2) /\
     (start.1 = disabled /\ quiet start.2) /\
     (skip.1 = disabled /\ quiet skip.2) /\
     (stop.1 = disabled /\ quiet stop.2)) /\
  (forall mode,
      ModeManager.getMode ModeManager.CenturionModeClass mm
      = Some (ModeManager.Centurion mode) ->
      (CenturionMode.start now mode).1 = false ->
      let start := CenturionController.startCenturion user now (request mm) in
      start.1 = Return "Centurion not yet fully initialized. Please wait and try again later" /\
      status start.2 = Some 428 /\
      threw start.1 = false /\
      start.1 <> Throw (ModeDisabledError "Centurion not enabled")).
Proof.
  split.
  - intros Hnone show body.
    unfold CenturionController.getCenturion,
      CenturionController.startCenturion, CenturionController.skipCenturion,
      CenturionController.stopCenturion, CenturionController.getMode.
    simpl. rewrite Hnone. simpl. done.
  - intros mode Hsome Hstart.
    unfold CenturionController.startCenturion, CenturionController.getMode.
    simpl. rewrite Hsome.
    destruct (CenturionMode.start now mode) as [started mode'].
    simpl in Hstart. subst started. simpl. done.
Qed.

Lemma C7_centurion_disabled_or_not_ready_witness :
  let tape := MixTape.mkTape "demo" "" "" [] 0 in
  let mode := CenturionMode.loadTape tape (CenturionMode.new [] [] []) in
  let mm :=
    ModeManager.enableMode ModeManager.CenturionModeClass
      (ModeManager.Centurion mode) "centurion" ModeManager.new in
  (CenturionController.stopCenturion "admin" (request ModeManager.new)).1
  = Throw (ModeDisabledError "Centurion not enabled") /\
  status (CenturionController.startCenturion "admin" 0 (request mm)).2
  = Some 428.
Proof.
  intros tape mode mm. split.
  - apply (proj1 (C7_centurion_disabled_or_not_ready
                    ModeManager.new "admin" 0) eq_refl
             (fun _ => "") (CenturionController.mkSkip 0)).
  - apply (proj2 (C7_centurion_disabled_or_not_ready mm "admin" 0) mode
             eq_refl eq_refl).
Defined.
End Controllers.

(** ** More on the handler manager *)
Section HandlerManagerMore.
Import Js Entities HandlerManager HandlerManagerStatic.

(** X5. [getInstance] is a singleton accessor: without an instance and
    without a server it throws and creates nothing; once it has
    returned a manager, every later call returns that same manager,
    whatever server it is given. *)
Theorem X5_getInstance_singleton :
  getInstance None None
  = (Throw (Error "Not all parameters provided to initialize"), None) /\
  (forall server instance m instance',
      getInstance server instance = (Return m, instance') ->
      forall server', getInstance server' instance' = (Return m, instance')).
Proof.
  split; [done|].
  intros server instance m instance' Hget server'.
  destruct instance as [m0|], server as [s|]; simplify_eq/=; done.
Qed.

Lemma X5_getInstance_singleton_witness :
  getInstance (Some (mkServer ["s2"] [])) (Some (new (mkServer [] [])))
  = (Return (new (mkServer [] [])), Some (new (mkServer [] []))).
Proof.
  apply (proj2 X5_getInstance_singleton (Some (mkServer [] [])) None).
  reflexivity.
Defined.

Lemma map_get_elem_of {K V : Type} `{EqDecision K} (k : K) (v : V) m :
  map_get k m = Some v -> (k, v) ∈ m.
Proof.
  induction m as [|[k0 v0] m IH]; simpl; [done|].
  destruct (decide (k = k0)) as [->|Hne].
  - intros [= ->]. left.
  - intros H. right. by apply IH.
Qed.

Lemma map_get_NoDup {K V : Type} `{EqDecision K} (k : K) (v : V) m :
  NoDup (map_keys m) -> (k, v) ∈ m -> map_get k m = Some v.
Proof.
  unfold map_keys. induction m as [|[k0 v0] m IH]; simpl.
  - by intros _ ?%elem_of_nil.
  - rewrite NoDup_cons, elem_of_cons. intros [Hk0 Hnd] [[= -> ->]|Hin].
    + by rewrite decide_True.
    + rewrite decide_False; [by apply IH|]. intros ->. apply Hk0.
      apply list_elem_of_fmap. by exists (k0, v).
Qed.

Lemma elem_of_concat {A : Type} (x : A) (ls : list (list A)) :
  x ∈ concat ls <-> exists l, x ∈ l /\ l ∈ ls.
Proof.
  induction ls as [|l ls IH]; simpl.
  - split; [by intros ?%elem_of_nil | by intros (l & _ & ?%elem_of_nil)].
  - rewrite elem_of_app, IH. split.
    + intros [Hx|(l' & Hx & Hl')].
      * exists l. split; [done | left].
      * exists l'. split; [done | by right].
    + intros (l' & Hx & [->|Hl']%elem_of_cons); [by left|].
      right. by exists l'.
Qed.

(** X6. [getHandlers()] without a class lists exactly the handlers that
    [getHandlers(cls)] lists for some class, and [getHandlers] of a
    class that the map lacks is empty. *)
Theorem X6_getHandlers_all_and_each (m : HandlerManager) :
  NoDup (map_keys (_handlers m)) ->
  (forall h, h ∈ getHandlers None m
             <-> exists cls, h ∈ getHandlers (Some cls) m) /\
  (forall cls, cls ∉ map_keys (_handlers m) -> getHandlers (Some cls) m = []).
Proof.
  intros Hnd. split.
  - intros h. unfold getHandlers, map_values. split.
    + intros Hin. apply elem_of_concat in Hin as (hs & Hh & Hhs).
      apply list_elem_of_fmap in Hhs as ([cls hs'] & -> & Hin).
      exists cls. by rewrite (map_get_NoDup cls hs' _ Hnd Hin).
    + intros (cls & Hin).
      destruct (map_get cls (_handlers m)) as [hs|] eqn:Hget;
        [|by apply elem_of_nil in Hin].
      apply elem_of_concat. exists hs. split; [done|].
      apply list_elem_of_fmap. exists (cls, hs).
      split; [done | by apply map_get_elem_of].
  - intros cls Hcls. unfold getHandlers.
    destruct (map_get cls (_handlers m)) as [hs|] eqn:Hget; [|done].
    exfalso. apply Hcls. apply list_elem_of_fmap. exists (cls, hs).
    split; [done | by apply map_get_elem_of].
Qed.

Lemma X6_getHandlers_all_and_each_witness :
  hname <$> getHandlers None (new (mkServer [] []))
  = ["SimpleAudioHandler"; "RandomEffectsHandler"; "SetEffectsHandler";
     "DevelopEffectsHandler"] /\
  (mkHandler "SetEffectsHandler" [] ∈ getHandlers None (new (mkServer [] []))
   <-> exists cls,
       mkHandler "SetEffectsHandler" []
         ∈ getHandlers (Some cls) (new (mkServer [] []))).
Proof.
  split; [reflexivity|].
  apply (proj1 (X6_getHandlers_all_and_each (new (mkServer [] []))
                  ltac:(apply (bool_decide_unpack _); by vm_compute))).
Defined.

(** *** The notifications and the reach of [registerHandler] *)

Lemma io_store cls hs m : io (store_handlers cls hs m) = io m.
Proof. unfold store_handlers. by destruct (map_get cls (_handlers m)). Qed.

Lemma handlers_store cls hs m :
  _handlers (store_handlers cls hs m)
  = match map_get cls (_handlers m) with
    | Some _ => map_set cls hs (_handlers m)
    | None => _handlers m
    end.
Proof. unfold store_handlers. by destruct (map_get cls (_handlers m)). Qed.

Lemma foldl_fmap_list {A B S : Type} (g : S -> B -> S) (f : A -> B)
      (l : list A) (s : S) :
  foldl g s (f <$> l) = foldl (fun s a => g s (f a)) s l.
Proof. revert s. induction l as [|a l IH]; intros s; simpl; [done|]. apply IH. Qed.

(** The server after [registerHandler]. *)
Lemma registerHandler_io e n m :
  let socket := sockets_get (default "" (socketId e)) (io m) in
  io (registerHandler e n m)
  = if decide (n <> "") then
      foldl (fun s h => if decide (hname h = n)
                        then emit socket "handler_set" [n] s else s)
            (io m) (getHandlers (Some (ctor e)) m)
    else emit socket "handler_remove" [] (io m).
Proof.
  intros socket. unfold registerHandler. fold socket.
  match goal with
  | |- context [let '(_, _) := ?X in _] => destruct X as [hs2 io'] eqn:HX
  end.
  rewrite io_store. simpl.
  destruct (decide (n <> "")) as [Hn|Hn].
  - apply (f_equal snd) in HX. simpl in HX. subst io'.
    rewrite forEach_snd, foldl_fmap_list.
    apply foldl_ext_fun. intros s h. simpl.
    by destruct (decide (hname h = n)).
  - by injection HX as _ <-.
Qed.

Lemma notify_none (n : string) (f : Server -> Server) (hs : list BaseHandler)
      (s : Server) :
  n ∉ hname <$> hs ->
  foldl (fun s h => if decide (hname h = n) then f s else s) s hs = s.
Proof.
  revert s. induction hs as [|h hs IH]; intros s Hn; simpl; [done|].
  rewrite fmap_cons, not_elem_of_cons in Hn. destruct Hn as [Hh Hn].
  rewrite decide_False by done. by apply IH.
Qed.

Lemma notify_once (n : string) (f : Server -> Server) (hs : list BaseHandler)
      (s : Server) :
  NoDup (hname <$> hs) -> n ∈ hname <$> hs ->
  foldl (fun s h => if decide (hname h = n) then f s else s) s hs = f s.
Proof.
  revert s. induction hs as [|h hs IH]; intros s Hnd Hn; simpl.
  - by apply elem_of_nil in Hn.
  - rewrite fmap_cons in Hnd, Hn. apply NoDup_cons in Hnd as [Hh Hnd].
    destruct (decide (hname h = n)) as [<-|Hne].
    + by apply notify_none.
    + apply elem_of_cons in Hn as [->|Hn]; [done|]. by apply IH.
Qed.

(** X7. What [registerHandler] tells the entity's socket.  The socket
    is looked up on the server under [entity.socketId || ''], that is
    under the entity's socket id, and under the empty string when the
    entity has none.  If the server has a socket of that id, exactly one
    message goes to it: 'handler_remove' without arguments for the empty
    name, 'handler_set' with the name for the name of a handler of the
    entity's class, and nothing for any other name.  If the server has
    no socket of that id, nothing is sent.  The sockets themselves stay
    as they are. *)
Theorem X7_registerHandler_notifies (m : HandlerManager)
        (e : SubscribeEntity) (n : string) :
  names_ok m ->
  let sid := default "" (socketId e) in
  let m' := registerHandler e n m in
  sockets (io m') = sockets (io m) /\
  emitted (io m')
  = emitted (io m)
    ++ (if decide (sid ∈ sockets (io m)) then
          if decide (n = "") then [mkEmit sid "handler_remove" []]
          else if decide (n ∈ hname <$> getHandlers (Some (ctor e)) m)
               then [mkEmit sid "handler_set" [n]]
               else []
        else []).
Proof.
  intros Hok sid m'. unfold m'. rewrite registerHandler_io. fold sid.
  destruct (names_ok_lookup (ctor e) m Hok) as [Hnd _].
  unfold sockets_get.
  destruct (decide (n <> "")) as [Hn|Hn].
  - rewrite (decide_False (P := n = "")) by done.
    destruct (decide (n ∈ hname <$> getHandlers (Some (ctor e)) m))
      as [Hin|Hin].
    + rewrite notify_once by done.
      destruct (decide (sid ∈ sockets (io m))); simpl;
        [done | by rewrite app_nil_r].
    + rewrite notify_none by done.
      destruct (decide (sid ∈ sockets (io m))); by rewrite app_nil_r.
  - apply dec_stable in Hn. subst n. rewrite (decide_True (P := "" = "")) by done.
    destruct (decide (sid ∈ sockets (io m))); simpl;
      [done | by rewrite app_nil_r].
Qed.

Lemma X7_registerHandler_notifies_witness :
  let m := new (mkServer ["s1"] []) in
  let e := mkEntity LightsGroup 1 "par-left" "" (Some "s1") in
  emitted (io (registerHandler e "SetEffectsHandler" m))
  = [mkEmit "s1" "handler_set" ["SetEffectsHandler"]].
Proof.
  intros m e.
  apply (X7_registerHandler_notifies m e "SetEffectsHandler").
  apply (bool_decide_unpack _). by vm_compute.
Defined.

(** X8. A name that no handler of the entity's class bears unbinds the
    entity: afterwards no handler of the class holds it; and unless the
    name is the empty one, the server is left as it was, nothing being
    sent. *)
Theorem X8_registerHandler_unknown_name (m : HandlerManager)
        (e : SubscribeEntity) (n : string) :
  n ∉ hname <$> getHandlers (Some (ctor e)) m ->
  holders e (registerHandler e n m) = [] /\
  (n <> "" -> io (registerHandler e n m) = io m).
Proof.
  intros Hn. split.
  - rewrite holders_registerHandler_same by done.
    assert (filter (fun h => n <> "" /\ hname h = n)
                   (getHandlers (Some (ctor e)) m) = []) as ->; [|done].
    induction (getHandlers (Some (ctor e)) m) as [|h hs IH]; [done|].
    rewrite fmap_cons, not_elem_of_cons in Hn. destruct Hn as [Hh Hn].
    rewrite filter_cons_False; [by apply IH|]. intros [_ ?]. by apply Hh.
  - intros Hne. rewrite registerHandler_io, decide_True by done.
    by apply notify_none.
Qed.

Lemma X8_registerHandler_unknown_name_witness :
  let m := new (mkServer ["s1"] []) in
  let e := mkEntity LightsGroup 1 "par-left" "" (Some "s1") in
  holders e (registerHandler e "SimpleAudioHandler" m) = [].
Proof.
  intros m e.
  apply (X8_registerHandler_unknown_name m e "SimpleAudioHandler").
  apply (bool_decide_unpack _). by vm_compute.
Defined.

(** X9. Rebinding one entity does not move any other: for an entity of
    another class, or of the same class with another id, the handlers
    that hold it bear the same names before and after. *)
Theorem X9_registerHandler_leaves_others (m : HandlerManager)
        (e e' : SubscribeEntity) (n : string) :
  ~ (ctor e' = ctor e /\ id e' = id e) ->
  hname <$> holders e' (registerHandler e n m) = hname <$> holders e' m.
Proof.
  intros Hkey. destruct (decide (ctor e' = ctor e)) as [Hc|Hc].
  - unfold holders. rewrite Hc, getHandlers_registerHandler.
    rewrite (filter_fmap_holds (fun h => holds h e')).
    + rewrite <- list_fmap_compose. apply list_fmap_ext.
      intros _ h _. apply hname_rebind.
    + intros h _. rewrite holds_rebind, decide_False; [done|]. tauto.
  - unfold holders. by rewrite getHandlers_registerHandler_other.
Qed.

Lemma X9_registerHandler_leaves_others_witness :
  let m := new (mkServer [] []) in
  let e := mkEntity LightsGroup 1 "par-left" "" None in
  let e' := mkEntity LightsGroup 2 "par-right" "" None in
  hname <$> holders e'
              (registerHandler e "SetEffectsHandler"
                 (registerHandler e' "SetEffectsHandler" m))
  = hname <$> holders e' (registerHandler e' "SetEffectsHandler" m).
Proof.
  intros m e e'.
  apply (X9_registerHandler_leaves_others _ e e' "SetEffectsHandler").
  intros [_ Hid]. discriminate Hid.
Defined.

Lemma map_set_map_set {K V : Type} `{EqDecision K} (k : K) (v1 v2 : V) m :
  map_set k v2 (map_set k v1 m) = map_set k v2 m.
Proof.
  induction m as [|[k0 v0] m IH]; simpl.
  - by rewrite decide_True.
  - destruct (decide (k = k0)) as [->|Hne]; simpl.
    + by rewrite decide_True.
    + by rewrite decide_False, IH.
Qed.

Lemma rebind_rebind e n1 n2 h : rebind e n2 (rebind e n1 h) = rebind e n2 h.
Proof.
  assert (Hrm : forall h', hname h' = hname h ->
            filter (fun x => id x <> id e) (entities h')
            = filter (fun x => id x <> id e) (entities h) ->
            rebind e n2 h' = rebind e n2 h).
  { intros h' Hname Hent. unfold rebind. rewrite Hname.
    assert (removeEntity h' e = removeEntity h e) as ->; [|done].
    unfold removeEntity. by rewrite Hname, Hent. }
  apply Hrm; [apply hname_rebind|].
  unfold rebind. destruct (decide (n1 <> "" /\ hname h = n1)).
  - unfold registerEntity.
    destruct (decide (holds (removeEntity h e) e)) as [Hh|Hh]; simpl.
    + by rewrite list_filter_filter, (list_filter_iff _ (fun x => id x <> id e))
        by tauto.
    + rewrite filter_app, filter_cons_False, filter_nil, app_nil_r by tauto.
      by rewrite list_filter_filter, (list_filter_iff _ (fun x => id x <> id e))
        by tauto.
  - simpl.
    by rewrite list_filter_filter, (list_filter_iff _ (fun x => id x <> id e))
      by tauto.
Qed.

(** X10. The last registration wins: registering an entity under one
    name and then under another leaves the handlers exactly as
    registering it under the second name alone. *)
Theorem X10_registerHandler_last_wins (m : HandlerManager)
        (e : SubscribeEntity) (n1 n2 : string) :
  _handlers (registerHandler e n2 (registerHandler e n1 m))
  = _handlers (registerHandler e n2 m).
Proof.
  destruct (registerHandler_eq e n2 (registerHandler e n1 m)) as [io2 ->].
  rewrite getHandlers_registerHandler.
  destruct (registerHandler_eq e n2 m) as [io2' ->].
  destruct (registerHandler_eq e n1 m) as [io1 ->].
  rewrite !handlers_store. simpl. rewrite !handlers_store. simpl.
  destruct (map_get (ctor e) (_handlers m)) as [hs|] eqn:Hget.
  - rewrite map_get_set_eq, map_set_map_set. f_equal.
    rewrite <- list_fmap_compose. apply list_fmap_ext.
    intros _ h _. apply rebind_rebind.
  - by rewrite Hget.
Qed.

(** *** What the boot restore binds *)

Lemma restore_into_app rs1 rs2 cls h :
  restore_into (rs1 ++ rs2) cls h
  = restore_into rs2 cls (restore_into rs1 cls h).
Proof. unfold restore_into. by rewrite foldl_app. Qed.

Lemma hname_restore_into rs cls h : hname (restore_into rs cls h) = hname h.
Proof.
  revert h. induction rs as [|r rs IH]; intros h; simpl; [done|].
  unfold restore_into in *. simpl. rewrite IH.
  destruct (decide _); [apply hname_registerEntity | done].
Qed.

Lemma holds_restore_into rs cls h e :
  holds (restore_into rs cls h) e
  <-> holds h e
      \/ exists r, r ∈ rs /\ ctor r = cls /\ id r = id e
                   /\ currentHandler r = hname h.
Proof.
  revert h. induction rs as [|r rs IH]; intros h.
  - simpl. split; [by left|]. intros [?|(r & ?%elem_of_nil & _)]; done.
  - change (restore_into (r :: rs) cls h)
      with (restore_into rs cls
              (if decide (ctor r = cls /\ hname h = currentHandler r)
               then registerEntity h r else h)).
    rewrite IH.
    destruct (decide (ctor r = cls /\ hname h = currentHandler r))
      as [[Hc Hn]|Hno].
    + rewrite holds_registerEntity, hname_registerEntity. split.
      * intros [[Hh|Hid]|(r' & Hr' & ?)].
        -- by left.
        -- right. exists r. split; [left|]. done.
        -- right. exists r'. split; [by right | done].
      * intros [Hh|(r' & [->|Hr']%elem_of_cons & Hc' & Hi' & Hn')].
        -- left. by left.
        -- left. by right.
        -- right. by exists r'.
    + split.
      * intros [Hh|(r' & Hr' & ?)]; [by left|].
        right. exists r'. split; [by right | done].
      * intros [Hh|(r' & [->|Hr']%elem_of_cons & Hc' & Hi' & Hn')].
        -- by left.
        -- exfalso. apply Hno. done.
        -- right. by exists r'.
Qed.

Lemma restore_instance_handlers r m m' cls :
  restore_instance r m = Return m' ->
  getHandlers (Some cls) m'
  = restore_into [r] cls <$> getHandlers (Some cls) m
  /\ io m' = io m.
Proof.
  unfold restore_instance.
  destruct (map_get (ctor r) (_handlers m)) as [hs|] eqn:Hget; [|done].
  intros [= <-]. rewrite io_store. split; [|done].
  destruct (decide (ctor r = cls)) as [<-|Hne].
  - rewrite getHandlers_store_same, Hget. unfold getHandlers. rewrite Hget.
    simpl. unfold restoreHandlers. apply list_fmap_ext.
    intros _ h _. simpl.
    destruct (decide (hname h = currentHandler r)).
    + by rewrite decide_True.
    + rewrite decide_False; [done|]. tauto.
  - rewrite getHandlers_store_other by done.
    rewrite <- (list_fmap_id (getHandlers (Some cls) m)) at 1.
    apply list_fmap_ext. intros _ h _. simpl.
    rewrite decide_False; [done|]. tauto.
Qed.

Lemma restore_instances_handlers rs m m' cls :
  restore_instances rs m = Return m' ->
  getHandlers (Some cls) m'
  = restore_into rs cls <$> getHandlers (Some cls) m
  /\ io m' = io m.
Proof.
  revert m. induction rs as [|r rs IH]; intros m Hrest;
    cbn [restore_instances] in Hrest.
  - injection Hrest as <-. by rewrite list_fmap_id.
  - destruct (restore_instance r m) as [m1|] eqn:H1; [|done].
    cbn [mbind Completion_bind bind] in Hrest.
    destruct (restore_instance_handlers r m m1 cls H1) as [Hh1 Hio1].
    destruct (IH m1 Hrest) as [Hh Hio].
    rewrite Hh, Hh1, Hio, Hio1, <- list_fmap_compose. split; [|done].
    apply list_fmap_ext. intros _ h _. simpl.
    symmetry. apply (restore_into_app [r] rs).
Qed.

Lemma restore_classes_handlers keys db m m' cls :
  restore_classes keys db m = Return m' ->
  getHandlers (Some cls) m'
  = restore_into (keys ≫= fun k => find k db) cls
      <$> getHandlers (Some cls) m
  /\ io m' = io m.
Proof.
  revert m. induction keys as [|k keys IH]; intros m Hrest;
    cbn [restore_classes] in Hrest.
  - injection Hrest as <-. by rewrite list_fmap_id.
  - destruct (restore_instances (find k db) m) as [m1|] eqn:H1; [|done].
    cbn [mbind Completion_bind bind] in Hrest.
    destruct (restore_instances_handlers _ m m1 cls H1) as [Hh1 Hio1].
    destruct (IH m1 Hrest) as [Hh Hio].
    rewrite Hh, Hh1, Hio, Hio1, <- list_fmap_compose. split; [|done].
    apply list_fmap_ext. intros _ h _. simpl.
    symmetry. apply restore_into_app.
Qed.

Lemma new_handlers_empty server cls :
  Forall (fun h => entities h = []) (getHandlers (Some cls) (new server)).
Proof. destruct cls; repeat constructor. Qed.

(** X11. The boot restore binds by the persisted name and by nothing
    else.  After [init] on the constructed manager a handler holds an
    entity exactly if some row of the entity's class and id names that
    handler as its [currentHandler]; so, keys being distinct, a row is
    bound to the handler that it names, and stays unbound if it names
    none.  The handler table keeps its names, nothing is sent and
    nothing is written. *)
Theorem X11_boot_restore_binds_by_name
        (server : Server) (db : DataSource) (w : World) :
  init (boot server db) = Return w ->
  (forall cls,
      hname <$> getHandlers (Some cls) (manager w)
      = hname <$> getHandlers (Some cls) (new server)) /\
  (forall e h,
      h ∈ getHandlers (Some (ctor e)) (manager w) ->
      holds h e
      <-> exists r, r ∈ db /\ ctor r = ctor e /\ id r = id e
                    /\ currentHandler r = hname h) /\
  (rows_distinct db ->
   forall r, r ∈ db ->
     hname <$> holders r (manager w)
     = filter (fun n => n = currentHandler r)
              (hname <$> getHandlers (Some (ctor r)) (new server))) /\
  io (manager w) = server /\ dataSource w = db.
Proof.
  unfold init, boot.
  cbn [manager dataSource listeners initialized new].
  change (map_keys (_handlers (new server))) with [Audio; LightsGroup; Screen].
  destruct (restore_classes [Audio; LightsGroup; Screen] db (new server))
    as [m|] eqn:Hm; [|done].
  intros [= <-]. cbn [manager dataSource listeners].
  assert (Hrows : forall r,
            r ∈ ([Audio; LightsGroup; Screen] ≫= fun k => find k db)
            <-> r ∈ db).
  { intros r. rewrite list_elem_of_bind. unfold find. split.
    - intros (k & Hr & _). by apply list_elem_of_filter in Hr as [_ ?].
    - intros Hr. exists (ctor r). split.
      + by apply list_elem_of_filter.
      + destruct (ctor r); repeat constructor. }
  assert (Hall : forall cls,
            getHandlers (Some cls) m
            = restore_into ([Audio; LightsGroup; Screen]
                              ≫= fun k => find k db) cls
                <$> getHandlers (Some cls) (new server)
            /\ io m = server).
  { intros cls. apply (restore_classes_handlers _ db (new server) m cls Hm). }
  assert (Hholds : forall e h,
            h ∈ getHandlers (Some (ctor e)) m ->
            holds h e
            <-> exists r, r ∈ db /\ ctor r = ctor e /\ id r = id e
                          /\ currentHandler r = hname h).
  { intros e h. rewrite (proj1 (Hall (ctor e))), list_elem_of_fmap.
    intros (h0 & -> & Hh0).
    rewrite holds_restore_into, hname_restore_into.
    assert (Hempty : ~ holds h0 e).
    { unfold holds.
      assert (entities h0 = []) as ->; [|apply not_elem_of_nil].
      pose proof (new_handlers_empty server (ctor e)) as Hnew.
      rewrite Forall_forall in Hnew. by apply Hnew. }
    split.
    - intros [?|(r & Hr & ?)]; [done|]. exists r. by rewrite <- Hrows.
    - intros (r & Hr & ?). right. exists r. by rewrite Hrows. }
  split; [|split; [|split; [|split]]].
  - intros cls. rewrite (proj1 (Hall cls)), <- list_fmap_compose.
    apply list_fmap_ext. intros _ h _. apply hname_restore_into.
  - exact Hholds.
  - intros Hdb r Hr. unfold holders.
    pose proof (Hholds r) as Hr'. rewrite (proj1 (Hall (ctor r))) in *.
    set (f := restore_into _ (ctor r)) in *.
    rewrite (filter_fmap_holds (fun h => hname h = currentHandler r)).
    + rewrite <- list_fmap_compose.
      assert (Hnames : forall hs : list BaseHandler,
                hname ∘ f <$> hs = hname <$> hs).
      { intros hs. apply list_fmap_ext. intros _ h _.
        apply hname_restore_into. }
      rewrite Hnames.
      generalize (getHandlers (Some (ctor r)) (new server)). intros hs.
      induction hs as [|h hs IH]; [done|].
      rewrite fmap_cons, !filter_cons.
      destruct (decide (hname h = currentHandler r));
        [by rewrite fmap_cons, IH | exact IH].
    + intros h Hh. rewrite (Hr' (f h)).
      * unfold f. rewrite hname_restore_into. split.
        -- intros (r' & Hr'' & Hc & Hi & Hn).
           by rewrite <- (rows_distinct_key db r' r Hdb Hr'' Hr Hc Hi).
        -- intros Hn. by exists r.
      * apply list_elem_of_fmap. by exists h.
  - apply Hall. exact Audio.
  - done.
Qed.

Lemma X11_boot_restore_binds_by_name_witness :
  let lost := mkEntity LightsGroup 2 "par-right" "RetiredHandler" None in
  let kept := mkEntity LightsGroup 1 "par-left" "SetEffectsHandler" None in
  exists w,
    init (boot (mkServer [] []) [kept; lost]) = Return w /\
    hname <$> holders lost (manager w) = [] /\
    hname <$> holders kept (manager w) = ["SetEffectsHandler"].
Proof.
  intros lost kept.
  destruct (init (boot (mkServer [] []) [kept; lost])) as [w|] eqn:Hw;
    [|by vm_compute in Hw].
  exists w. split; [done|].
  destruct (X11_boot_restore_binds_by_name _ _ w Hw) as (_ & _ & Hrows & _).
  assert (Hdb : rows_distinct [kept; lost])
    by (apply (bool_decide_unpack _); by vm_compute).
  split.
  - rewrite (Hrows Hdb lost) by (right; left). reflexivity.
  - rewrite (Hrows Hdb kept) by left. reflexivity.
Defined.

(** *** The messages of the connect and disconnect callbacks *)

Section Notices.
Variables (who : string) (v : option string) (ev sid : string).
Variable visit : string -> SubscribeEntity -> Server * DataSource
                 -> SubscribeEntity * (Server * DataSource).
Hypothesis visit_eq : forall hn e s,
  visit hn e s
  = if decide (name e = who)
    then (set_socketId v e,
          (emit (sockets_get sid s.1) ev [hn] s.1,
           save (set_socketId v e) s.2))
    else (e, s).

Lemma visits_emitted (regs : list (string * SubscribeEntity))
      (s : Server * DataSource) :
  let s' := foldl (fun s p => (visit p.1 p.2 s).2) s regs in
  sockets s'.1 = sockets s.1 /\
  emitted s'.1
  = emitted s.1
    ++ (if decide (sid ∈ sockets s.1) then notices who sid ev regs else []).
Proof.
  revert s. induction regs as [|[hn e] regs IH]; intros s; simpl.
  - split; [done|]. destruct (decide _); by rewrite app_nil_r.
  - destruct (IH (visit hn e s).2) as [Hs He]. rewrite Hs, He.
    rewrite visit_eq. unfold notices. rewrite filter_cons. simpl.
    destruct (decide (name e = who)) as [Hn|Hn]; [|done]. simpl.
    unfold sockets_get.
    destruct (decide (sid ∈ sockets s.1)) as [Hin|Hin]; simpl.
    + split; [done|]. rewrite decide_True by done.
      by rewrite <- app_assoc.
    + split; [done|]. by rewrite decide_False by done.
Qed.
End Notices.

Lemma run_callback_emitted cb user sid ev w :
  (cb = OnConnect /\ ev = "handler_set") \/
  (cb = OnDisconnect /\ ev = "handler_remove") ->
  let w' := run_callback cb user sid w in
  sockets (io (manager w')) = sockets (io (manager w)) /\
  emitted (io (manager w'))
  = emitted (io (manager w))
    ++ (if decide (sid ∈ sockets (io (manager w)))
        then notices (uname user) sid ev (registrations (_handlers (manager w)))
        else []).
Proof.
  intros Hcb. unfold run_callback.
  set (visit := match cb with
                | OnConnect => connect_visit user sid
                | OnDisconnect => disconnect_visit user sid
                end).
  set (s0 := (io (manager w), dataSource w)).
  pose proof (scan_snd visit (_handlers (manager w)) s0) as Hsnd.
  assert (Hem :
    let s' := foldl (fun s p => (visit p.1 p.2 s).2) s0
                    (registrations (_handlers (manager w))) in
    sockets s'.1 = sockets s0.1 /\
    emitted s'.1
    = emitted s0.1
      ++ (if decide (sid ∈ sockets s0.1)
          then notices (uname user) sid ev
                 (registrations (_handlers (manager w)))
          else [])).
  { destruct Hcb as [[-> ->]|[-> ->]].
    - by apply (visits_emitted (uname user) (Some sid)).
    - by apply (visits_emitted (uname user) None). }
  rewrite <- Hsnd in Hem.
  destruct (scan visit (_handlers (manager w)) s0) as [hs [io' db']].
  exact Hem.
Qed.

(** X12. The callbacks send one message per registration of the
    identity and none besides.  After one [init], a connect event for an
    identity and a socket id that the server knows appends to what was
    sent exactly one 'handler_set', with the handler's name, for each
    registration of an entity of that name, in the order in which the
    handlers are scanned; a disconnect event appends one
    'handler_remove' each; for a socket id that the server does not know
    nothing is sent. *)
Theorem X12_events_send_one_message_per_registration
        (w : World) (user : User) (sid : string) :
  subscribed w ->
  let regs := registrations (_handlers (manager w)) in
  let live := sid ∈ sockets (io (manager w)) in
  emitted (io (manager (emit_event "connect" user sid w)))
  = emitted (io (manager w))
    ++ (if decide live then notices (uname user) sid "handler_set" regs
        else []) /\
  emitted (io (manager (emit_event "disconnect" user sid w)))
  = emitted (io (manager w))
    ++ (if decide live then notices (uname user) sid "handler_remove" regs
        else []).
Proof.
  intros Hsub regs live.
  rewrite emit_event_connect, emit_event_disconnect by done. split.
  - by apply (run_callback_emitted OnConnect); left.
  - by apply (run_callback_emitted OnDisconnect); right.
Qed.

Lemma X12_events_send_one_message_per_registration_witness :
  let speaker := mkEntity Audio 1 "speaker" "SimpleAudioHandler" None in
  let w := {| manager :=
                registerHandler speaker "SimpleAudioHandler"
                  (new (mkServer ["s9"] []));
              dataSource := [speaker];
              listeners := [ ("connect", OnConnect);
                             ("disconnect", OnDisconnect) ] |} in
  emitted (io (manager (emit_event "connect" (mkUser "speaker") "s9" w)))
  = [mkEmit "s9" "handler_set" ["SimpleAudioHandler"]].
Proof.
  intros speaker w.
  apply (X12_events_send_one_message_per_registration w (mkUser "speaker")
           "s9" eq_refl).
Defined.

(** *** A disconnect after a connect *)

Lemma retag_entity_twice who v1 v2 e :
  retag_entity who v2 (retag_entity who v1 e) = retag_entity who v2 e.
Proof.
  unfold retag_entity. destruct (decide (name e = who)) as [Hn|Hn]; simpl.
  - by rewrite decide_True.
  - by rewrite decide_False.
Qed.

Lemma retag_twice who v1 v2 hs :
  retag who v2 (retag who v1 hs) = retag who v2 hs.
Proof.
  unfold retag. rewrite <- list_fmap_compose. apply list_fmap_ext.
  intros _ [cls handlers] _. simpl. f_equal.
  rewrite <- list_fmap_compose. apply list_fmap_ext.
  intros _ h _. unfold retag_handler. simpl. f_equal.
  rewrite <- list_fmap_compose. apply list_fmap_ext.
  intros _ e _. apply retag_entity_twice.
Qed.

Lemma registrations_retag who v hs :
  registrations (retag who v hs)
  = (fun p => (p.1, retag_entity who v p.2)) <$> registrations hs.
Proof.
  unfold registrations, retag.
  induction hs as [|[cls handlers] hs IH]; [done|].
  rewrite fmap_cons, !bind_cons, fmap_app, IH. f_equal. simpl.
  clear IH. induction handlers as [|h handlers IH]; [done|].
  rewrite fmap_cons, !bind_cons, fmap_app, IH. f_equal. simpl.
  clear IH. induction (entities h) as [|e es IH]; [done|].
  rewrite fmap_cons, !bind_cons, fmap_app, IH. done.
Qed.

(** X13. A disconnect after a connect.  After one [init], a connect
    event followed by a disconnect event for the same identity leaves
    the handlers as a disconnect alone would: every registered entity of
    that name without socket id, all others as they were.  The data
    source does not follow: the row of each such entity still holds the
    socket id that the connect event stored. *)
Theorem X13_disconnect_after_connect
        (w : World) (user : User) (sid sid' : string) :
  subscribed w ->
  let wd := emit_event "disconnect" user sid'
              (emit_event "connect" user sid w) in
  _handlers (manager wd) = retag (uname user) None (_handlers (manager w)) /\
  (forall hn e,
      (hn, e) ∈ registrations (_handlers (manager w)) ->
      name e = uname user ->
      exists r, row (ctor e) (id e) (dataSource wd) = Some r
                /\ socketId r = Some sid).
Proof.
  intros Hsub wd. unfold wd. clear wd.
  rewrite emit_event_connect by done.
  destruct (run_callback_tracks OnConnect user sid (Some sid)
              "handler_set" w) as (Hc1 & Hc2 & _ & _ & Hc5); [by left|].
  set (wc := run_callback OnConnect user sid w) in *.
  assert (Hsubc : subscribed wc) by (unfold subscribed; by rewrite Hc5).
  rewrite emit_event_disconnect by done.
  destruct (run_callback_tracks OnDisconnect user sid' None
              "handler_remove" wc) as (Hd1 & Hd2 & _); [by right|].
  split.
  - by rewrite Hd1, Hc1, retag_twice.
  - intros hn e Hin Hname.
    destruct (Hc2 hn e Hin Hname) as [(rc & Hrc & Hsc) _].
    destruct (Hd2 hn (set_socketId (Some sid) e)) as [(r & Hr & Hs) _];
      [|done|].
    { rewrite Hc1, registrations_retag. apply list_elem_of_fmap.
      exists (hn, e). split; [|done]. simpl. unfold retag_entity.
      by rewrite decide_True. }
    exists r. split; [exact Hr|]. rewrite Hs. simpl.
    unfold stored_socketId. by rewrite Hrc.
Qed.

Lemma X13_disconnect_after_connect_witness :
  let speaker := mkEntity Audio 1 "speaker" "SimpleAudioHandler" None in
  let w := {| manager :=
                registerHandler speaker "SimpleAudioHandler"
                  (new (mkServer ["s9"] []));
              dataSource := [speaker];
              listeners := [ ("connect", OnConnect);
                             ("disconnect", OnDisconnect) ] |} in
  let wd := emit_event "disconnect" (mkUser "speaker") "s9"
              (emit_event "connect" (mkUser "speaker") "s9" w) in
  _handlers (manager wd) = retag "speaker" None (_handlers (manager w)) /\
  exists r, row Audio 1 (dataSource wd) = Some r /\ socketId r = Some "s9".
Proof.
  intros speaker w wd.
  destruct (X13_disconnect_after_connect w (mkUser "speaker") "s9" "s9"
              eq_refl) as [Hhandlers Hrows].
  split; [exact Hhandlers|].
  apply (Hrows "SimpleAudioHandler" speaker); [|reflexivity].
  apply (bool_decide_unpack _). by vm_compute.
Defined.
End HandlerManagerMore.

(** ** More on the settings store *)
Section SettingsStoreMore.
Import Js ServerSettingsStore ServerSettings.

Lemma find_setting_key k l s : find_setting k l = Some s -> key s = k.
Proof.
  unfold find_setting.
  destruct (list_find _ l) as [[i x]|] eqn:Hf; [|done].
  intros [= <-]. by apply list_find_Some in Hf as (_ & ? & _).
Qed.

Lemma find_setting_cons k r l :
  find_setting k (r :: l)
  = if decide (key r = k) then Some r else find_setting k l.
Proof.
  unfold find_setting. simpl. destruct (decide (key r = k)); [done|].
  by destruct (list_find _ l) as [[i x]|].
Qed.

Lemma find_setting_app k l1 l2 :
  find_setting k (l1 ++ l2)
  = match find_setting k l1 with
    | Some s => Some s
    | None => find_setting k l2
    end.
Proof.
  induction l1 as [|r l1 IH]; [done|].
  rewrite <- app_comm_cons, !find_setting_cons.
  by destruct (decide (key r = k)).
Qed.

Lemma find_setting_None k l :
  find_setting k l = None <-> forall r, r ∈ l -> key r <> k.
Proof.
  induction l as [|r l IH].
  - split; [by intros _ r ?%elem_of_nil | done].
  - rewrite find_setting_cons. destruct (decide (key r = k)) as [Hk|Hk].
    + split; [done|]. intros H. exfalso. apply (H r); [left | done].
    + rewrite IH. split.
      * intros H r' [->|Hr']%elem_of_cons; [done | by apply H].
      * intros H r' Hr'. apply H. by right.
Qed.

Lemma repo_save_fresh row table :
  find_setting (key row) table = None -> repo_save row table = table ++ [row].
Proof.
  induction table as [|r table IH]; simpl; [done|].
  rewrite find_setting_cons. destruct (decide (key r = key row)); [done|].
  intros H. by rewrite IH.
Qed.

Lemma find_setting_repo_save k row table :
  find_setting k (repo_save row table)
  = if decide (key row = k)
    then Some row
    else find_setting k table.
Proof.
  induction table as [|r table IH]; simpl.
  - rewrite find_setting_cons. by destruct (decide (key row = k)).
  - destruct (decide (key r = key row)) as [Hr|Hr].
    + rewrite !find_setting_cons.
      destruct (decide (key row = k)) as [Hk|Hk]; [done|].
      rewrite decide_False; [done | congruence].
    + rewrite !find_setting_cons, IH.
      destruct (decide (key r = k)) as [Hk|Hk]; [|done].
      rewrite decide_False; [done | congruence].
Qed.

Lemma missing_cons k v rest fetched :
  missing ((k, v) :: rest) fetched
  = match find_setting k fetched with
    | Some _ => missing rest fetched
    | None => mkSetting k v :: missing rest fetched
    end.
Proof.
  unfold missing. rewrite filter_cons. simpl.
  destruct (find_setting k fetched) eqn:Hf.
  - by rewrite decide_False.
  - by rewrite decide_True.
Qed.

Lemma missing_keys defaults fetched r :
  r ∈ missing defaults fetched ->
  key r ∈ defaults.*1 /\ find_setting (key r) fetched = None.
Proof.
  unfold missing. rewrite list_elem_of_fmap.
  intros ([k v] & -> & Hin). apply list_elem_of_filter in Hin as [Hf Hin].
  split; [|done]. simpl. apply list_elem_of_fmap. by exists (k, v).
Qed.

(** The first loop of [initialize], in one equation. *)
Lemma save_missing_eq entries fetched :
  save_missing entries fetched = missing entries fetched.
Proof.
  induction entries as [|[k v] rest IH]; [done|].
  rewrite missing_cons. simpl.
  destruct (find_setting k fetched); by rewrite IH.
Qed.

Lemma missing_NoDup defaults fetched :
  NoDup defaults.*1 -> NoDup (key <$> missing defaults fetched).
Proof.
  induction defaults as [|[k v] rest IH]; intros Hnd; [constructor|].
  rewrite fmap_cons in Hnd. apply NoDup_cons in Hnd as [Hk Hnd].
  rewrite missing_cons. destruct (find_setting k fetched); [by apply IH|].
  rewrite fmap_cons. apply NoDup_cons. split; [|by apply IH].
  simpl. intros Hin. apply Hk.
  apply list_elem_of_fmap in Hin as (r & -> & Hr).
  by apply missing_keys in Hr as [? _].
Qed.

(** Rows with fresh, distinct keys are appended in the order in which
    they are saved. *)
Lemma foldl_repo_save_fresh rows table :
  NoDup (key <$> rows) ->
  (forall r, r ∈ rows -> find_setting (key r) table = None) ->
  foldl (fun table row => repo_save row table) table rows = table ++ rows.
Proof.
  revert table. induction rows as [|r rows IH]; intros table Hnd Hfresh.
  - simpl. by rewrite app_nil_r.
  - rewrite fmap_cons in Hnd. apply NoDup_cons in Hnd as [Hr Hnd]. simpl.
    rewrite repo_save_fresh by (apply Hfresh; left).
    rewrite IH; [by rewrite <- app_assoc | done |].
    intros r' Hr'. rewrite find_setting_app, Hfresh by (by right).
    rewrite find_setting_cons, decide_False; [done|].
    intros Heq. apply Hr. rewrite Heq. apply list_elem_of_fmap. by exists r'.
Qed.

Lemma find_setting_elem k l s : find_setting k l = Some s -> s ∈ l.
Proof.
  unfold find_setting.
  destruct (list_find _ l) as [[i x]|] eqn:Hf; [|done].
  intros [= <-]. apply list_find_Some in Hf as (Hi & _).
  by eapply list_elem_of_lookup_2.
Qed.

Lemma NoDup_key_eq (l : list ServerSetting) r r' :
  NoDup (key <$> l) -> r ∈ l -> r' ∈ l -> key r = key r' -> r = r'.
Proof.
  induction l as [|x l IH]; intros Hnd Hr Hr' Hk.
  - by apply elem_of_nil in Hr.
  - rewrite fmap_cons in Hnd. apply NoDup_cons in Hnd as [Hx Hnd].
    apply elem_of_cons in Hr as [->|Hr]; apply elem_of_cons in Hr' as [->|Hr'].
    + done.
    + exfalso. apply Hx. rewrite Hk. apply list_elem_of_fmap. by exists r'.
    + exfalso. apply Hx. rewrite <- Hk. apply list_elem_of_fmap. by exists r.
    + by apply IH.
Qed.

(** With distinct keys, the order of the rows does not matter to
    [find]. *)
Lemma find_setting_Permutation k l l' :
  NoDup (key <$> l) -> l ≡ₚ l' -> find_setting k l = find_setting k l'.
Proof.
  intros Hnd Hperm.
  destruct (find_setting k l) as [s|] eqn:Hf.
  - pose proof (find_setting_elem _ _ _ Hf) as Hs.
    pose proof (find_setting_key _ _ _ Hf) as Hk.
    destruct (find_setting k l') as [s'|] eqn:Hf'.
    + pose proof (find_setting_elem _ _ _ Hf') as Hs'.
      pose proof (find_setting_key _ _ _ Hf') as Hk'.
      rewrite <- Hperm in Hs'. f_equal.
      apply (NoDup_key_eq l); [done..|congruence].
    + apply find_setting_None with (r := s) in Hf'; [done|].
      by rewrite <- Hperm.
  - symmetry. apply find_setting_None. intros r Hr.
    rewrite <- Hperm in Hr. revert r Hr. by apply find_setting_None.
Qed.

Lemma collect_ext keys all all' map :
  (forall k, k ∈ keys -> find_setting k all = find_setting k all') ->
  collect keys all map = collect keys all' map.
Proof.
  revert map. induction keys as [|k keys IH]; intros map Hall; [done|].
  cbn [collect]. rewrite <- (Hall k) by left.
  destruct (find_setting k all); [|done].
  apply IH. intros k' Hk'. apply Hall. by right.
Qed.

Lemma collect_lookup keys all map map' :
  collect keys all map = Return map' ->
  forall k,
    map' !! k
    = if decide (k ∈ keys) then value <$> find_setting k all else map !! k.
Proof.
  revert map. induction keys as [|k0 keys IH]; intros map; cbn [collect].
  - intros [= <-] k. by rewrite decide_False by apply not_elem_of_nil.
  - destruct (find_setting k0 all) as [s0|] eqn:Hf0; [|done].
    intros Hrest k. rewrite (IH _ Hrest k).
    pose proof (find_setting_key _ _ _ Hf0) as Hkey.
    destruct (decide (k ∈ keys)) as [Hin|Hin].
    + rewrite decide_True; [done | by right].
    + destruct (decide (k = k0)) as [->|Hne].
      * rewrite decide_True by left. by rewrite Hkey, lookup_insert_eq, Hf0.
      * rewrite decide_False by (intros [?|?]%elem_of_cons; done).
        rewrite Hkey. by rewrite lookup_insert_ne.
Qed.

Lemma find_setting_missing defaults fetched k v :
  NoDup defaults.*1 -> (k, v) ∈ defaults -> find_setting k fetched = None ->
  find_setting k (missing defaults fetched) = Some (mkSetting k v).
Proof.
  induction defaults as [|[k0 v0] rest IH]; intros Hnd Hin Hf.
  - by apply elem_of_nil in Hin.
  - rewrite fmap_cons in Hnd. apply NoDup_cons in Hnd as [Hk0 Hnd].
    rewrite missing_cons. apply elem_of_cons in Hin as [[= -> ->]|Hin].
    + rewrite Hf, find_setting_cons. simpl. by rewrite decide_True.
    + assert (Hne : k0 <> k).
      { intros ->. apply Hk0. apply list_elem_of_fmap. by exists (k, v). }
      destruct (find_setting k0 fetched); [by apply IH|].
      rewrite find_setting_cons. simpl. rewrite decide_False by done.
      by apply IH.
Qed.

(** The settings that [initialize] leaves, in one equation. *)
Lemma initialize_settings_eq defaults arrival store store' :
  initialize defaults arrival store = Return store' ->
  initialized store' = true /\
  repo store' = settle arrival (missing defaults (repo store)) (repo store) /\
  collect (defaults.*1) (repo store ++ missing defaults (repo store)) ∅
  = Return (settings store').
Proof.
  unfold initialize.
  destruct (initialized store); [done|]. cbn zeta.
  rewrite save_missing_eq.
  destruct (collect _ _ _) as [map|] eqn:Hmap; [|done].
  by intros [= <-].
Qed.

(** The table that [initialize] leaves: the rows added, in the order of
    their arrival, after the rows that were there. *)
Lemma initialize_repo_eq defaults arrival store store' :
  reorders arrival ->
  NoDup defaults.*1 ->
  initialize defaults arrival store = Return store' ->
  repo store' = repo store ++ arrival (missing defaults (repo store)).
Proof.
  intros Harr Hnd Hinit.
  destruct (initialize_settings_eq _ _ _ _ Hinit) as (_ & -> & _).
  unfold settle. apply foldl_repo_save_fresh.
  - rewrite (Harr _). by apply missing_NoDup.
  - intros r Hr. rewrite (Harr _) in Hr. by apply missing_keys in Hr as [_ ?].
Qed.

Lemma initialize_covers defaults arrival store store' k :
  reorders arrival ->
  NoDup defaults.*1 ->
  initialize defaults arrival store = Return store' ->
  k ∈ defaults.*1 -> is_Some (find_setting k (repo store')).
Proof.
  intros Harr Hnd Hinit Hk.
  rewrite (initialize_repo_eq _ _ _ _ Harr Hnd Hinit), find_setting_app.
  destruct (find_setting k (repo store)) as [row|] eqn:Hf; [by eexists|].
  apply list_elem_of_fmap in Hk as ([k' v] & -> & Hin). simpl in *.
  rewrite <- (find_setting_Permutation k' _ _
                (missing_NoDup defaults (repo store) Hnd)
                (symmetry (Harr _))).
  rewrite (find_setting_missing defaults (repo store) k' v) by done.
  by eexists.
Qed.

(** X14. After [initialize] the settings hold exactly the default
    keys: for each default, the value of the row that the table already
    had for its key, or else the default value; and nothing for any
    other key, even one that has a row in the table. *)
Theorem X14_initialize_settings
        (defaults : list (string * string))
        (arrival : list ServerSetting -> list ServerSetting)
        (store store' : ServerSettingsStore) :
  NoDup defaults.*1 ->
  initialize defaults arrival store = Return store' ->
  (forall k v,
      (k, v) ∈ defaults ->
      settings store' !! k
      = Some (match find_setting k (repo store) with
              | Some row => value row
              | None => v
              end)) /\
  (forall k, k ∉ defaults.*1 -> settings store' !! k = None).
Proof.
  intros Hnd Hinit.
  destruct (initialize_settings_eq defaults arrival store store' Hinit)
    as (_ & _ & Hmap).
  pose proof (collect_lookup _ _ _ _ Hmap) as Hlook.
  split.
  - intros k v Hin. rewrite Hlook, decide_True
      by (apply list_elem_of_fmap; by exists (k, v)).
    rewrite find_setting_app.
    destruct (find_setting k (repo store)) as [row|] eqn:Hf; [done|].
    by rewrite (find_setting_missing defaults (repo store) k v).
  - intros k Hk. by rewrite Hlook, decide_False.
Qed.

Lemma X14_initialize_settings_witness :
  let defaults := [("venue", "hall"); ("volume", "5")] in
  let store := new [mkSetting "volume" "9"; mkSetting "legacy" "x"] in
  exists store',
    initialize defaults reverse store = Return store' /\
    settings store' !! "volume" = Some "9" /\
    settings store' !! "venue" = Some "hall" /\
    settings store' !! "legacy" = None.
Proof.
  intros defaults store.
  destruct (initialize defaults reverse store) as [store'|] eqn:Hinit;
    [|by vm_compute in Hinit].
  exists store'. split; [done|].
  assert (Hnd : NoDup defaults.*1)
    by (apply (bool_decide_unpack _); by vm_compute).
  destruct (X14_initialize_settings defaults reverse store store' Hnd Hinit)
    as [Hin Hout].
  split; [|split].
  - apply (Hin "volume" "5"). right. left.
  - apply (Hin "venue" "hall"). left.
  - apply Hout. apply (bool_decide_unpack _). by vm_compute.
Defined.

(** X15. [initialize] only adds to the table: afterwards it is the
    table as it was, rows of unknown keys included, followed by one row
    with the default value for each default key that had no row.  The
    rows added come in the order in which their saves arrive, which need
    not be the order of the defaults.  Every default key has a row. *)
Theorem X15_initialize_table
        (defaults : list (string * string))
        (arrival : list ServerSetting -> list ServerSetting)
        (store store' : ServerSettingsStore) :
  reorders arrival ->
  NoDup defaults.*1 ->
  initialize defaults arrival store = Return store' ->
  (exists added,
      repo store' = repo store ++ added /\
      added ≡ₚ missing defaults (repo store)) /\
  (forall k, k ∈ defaults.*1 -> is_Some (find_setting k (repo store'))).
Proof.
  intros Harr Hnd Hinit. split.
  - exists (arrival (missing defaults (repo store))).
    split; [by apply initialize_repo_eq | apply Harr].
  - intros k Hk. by apply (initialize_covers defaults arrival store).
Qed.

Lemma X15_initialize_table_witness :
  let defaults := [("venue", "hall"); ("volume", "5"); ("mode", "idle")] in
  let store := new [mkSetting "volume" "9"; mkSetting "legacy" "x"] in
  exists store',
    initialize defaults reverse store = Return store' /\
    repo store'
    = [mkSetting "volume" "9"; mkSetting "legacy" "x";
       mkSetting "mode" "idle"; mkSetting "venue" "hall"] /\
    is_Some (find_setting "venue" (repo store')).
Proof.
  intros defaults store.
  destruct (initialize defaults reverse store) as [store'|] eqn:Hinit;
    [|by vm_compute in Hinit].
  exists store'.
  assert (Hnd : NoDup defaults.*1)
    by (apply (bool_decide_unpack _); by vm_compute).
  assert (Harr : reorders reverse) by (intros rows; apply reverse_Permutation).
  destruct (X15_initialize_table defaults reverse store store' Harr Hnd Hinit)
    as [_ Hrows].
  split; [done|]. split.
  - vm_compute in Hinit. by injection Hinit as <-.
  - apply Hrows. apply (bool_decide_unpack _). by vm_compute.
Defined.

Lemma missing_nil defaults fetched :
  (forall k, k ∈ defaults.*1 -> is_Some (find_setting k fetched)) ->
  missing defaults fetched = [].
Proof.
  induction defaults as [|[k v] rest IH]; intros Hall; [done|].
  rewrite missing_cons. destruct (Hall k) as [s ->]; [left|].
  apply IH. intros k' Hk'. apply Hall. by right.
Qed.

(** X16. A restart finds nothing to do: a fresh store over the table
    that [initialize] left initialises to the same settings and leaves
    the table as it is. *)
Theorem X16_initialize_again_after_restart
        (defaults : list (string * string))
        (arrival arrival' : list ServerSetting -> list ServerSetting)
        (store store' : ServerSettingsStore) :
  reorders arrival -> reorders arrival' ->
  NoDup defaults.*1 ->
  initialize defaults arrival store = Return store' ->
  exists store'',
    initialize defaults arrival' (new (repo store')) = Return store'' /\
    repo store'' = repo store' /\
    settings store'' = settings store'.
Proof.
  intros Harr Harr' Hnd Hinit.
  pose proof (initialize_repo_eq defaults arrival store store' Harr Hnd Hinit)
    as Hrepo.
  destruct (initialize_settings_eq defaults arrival store store' Hinit)
    as (_ & _ & Hmap).
  assert (Hall : forall k, k ∈ defaults.*1 ->
                           is_Some (find_setting k (repo store'))).
  { intros k Hk. by apply (initialize_covers defaults arrival store). }
  destruct (initialize_returns defaults arrival' (new (repo store')) eq_refl)
    as (store'' & Hinit' & _).
  exists store''. split; [done|].
  pose proof (initialize_repo_eq defaults arrival' _ store'' Harr' Hnd Hinit')
    as Hrepo'.
  destruct (initialize_settings_eq defaults arrival' _ store'' Hinit')
    as (_ & _ & Hmap').
  simpl in Hrepo', Hmap'.
  rewrite missing_nil in Hrepo', Hmap' by done.
  assert (Hnil : arrival' [] = []) by (apply Permutation_nil_r, Harr').
  rewrite Hnil in Hrepo'. rewrite app_nil_r in Hrepo', Hmap'.
  split; [done|].
  assert (Hsame : collect (defaults.*1) (repo store') ∅
                  = collect (defaults.*1)
                      (repo store ++ missing defaults (repo store)) ∅).
  { apply collect_ext. intros k _. rewrite Hrepo, !find_setting_app.
    destruct (find_setting k (repo store)); [done|].
    symmetry. apply find_setting_Permutation;
      [by apply missing_NoDup | symmetry; apply Harr]. }
  congruence.
Qed.

Lemma X16_initialize_again_after_restart_witness :
  let defaults := [("venue", "hall"); ("volume", "5"); ("mode", "idle")] in
  let store := new [mkSetting "volume" "9"] in
  exists store' store'',
    initialize defaults reverse store = Return store' /\
    initialize defaults reverse (new (repo store')) = Return store'' /\
    repo store'' = repo store'.
Proof.
  intros defaults store.
  destruct (initialize defaults reverse store) as [store'|] eqn:Hinit;
    [|by vm_compute in Hinit].
  assert (Hnd : NoDup defaults.*1)
    by (apply (bool_decide_unpack _); by vm_compute).
  assert (Harr : reorders reverse) by (intros rows; apply reverse_Permutation).
  destruct (X16_initialize_again_after_restart defaults reverse reverse
              store store' Harr Harr Hnd Hinit) as (store'' & H1 & H2 & _).
  by exists store', store''.
Defined.

(** X17. The accessors.  Before [initialize] both [getSetting] and
    [setSetting] throw 'ServerSettingsStore has not been initialized.'
    and change nothing.  On an initialised store [setSetting] of a key
    with a row writes the new value to that row and to nothing else in
    the settings kept in memory: [getSetting] goes on returning what it
    returned before.  For a key without a row it throws a TypeError and
    changes nothing. *)
Theorem X17_getSetting_setSetting
        (store : ServerSettingsStore) (k v : string) :
  (initialized store = false ->
   getSetting k store
   = Throw (Error "ServerSettingsStore has not been initialized.") /\
   setSetting k v store
   = (Throw (Error "ServerSettingsStore has not been initialized."), store)) /\
  (initialized store = true ->
   getSetting k store = Return (settings store !! k) /\
   (is_Some (find_setting k (repo store)) ->
    let r := setSetting k v store in
    r.1 = Return (mkSetting k v) /\
    find_setting k (repo r.2) = Some (mkSetting k v) /\
    (forall k', k' <> k ->
                find_setting k' (repo r.2) = find_setting k' (repo store)) /\
    (forall k', getSetting k' r.2 = getSetting k' store)) /\
   (find_setting k (repo store) = None ->
    threw (setSetting k v store).1 = true /\
    (setSetting k v store).2 = store)).
Proof.
  split; intros Hinit.
  - unfold getSetting, setSetting, isInitialized. by rewrite Hinit.
  - unfold getSetting, setSetting, isInitialized. rewrite Hinit.
    split; [done|]. split.
    + intros [row Hrow]. rewrite Hrow.
      pose proof (find_setting_key _ _ _ Hrow) as Hkey. rewrite Hkey.
      cbn [fst snd repo settings initialized].
      split; [done|]. split; [|split].
      * by rewrite find_setting_repo_save, decide_True.
      * intros k' Hk'. rewrite find_setting_repo_save. simpl.
        by rewrite decide_False.
      * done.
    + by intros ->.
Qed.

Lemma X17_getSetting_setSetting_witness :
  let store :=
    {| initialized := true;
       repo := [mkSetting "volume" "9"];
       settings := {["volume" := "9"]} |} in
  getSetting "volume" (setSetting "volume" "3" store).2 = Return (Some "9") /\
  find_setting "volume" (repo (setSetting "volume" "3" store).2)
  = Some (mkSetting "volume" "3").
Proof.
  intros store.
  destruct (proj2 (X17_getSetting_setSetting store "volume" "3") eq_refl)
    as (Hget & Hset & _).
  destruct (Hset ltac:(by eexists)) as (_ & Hrow & _ & Hstale).
  split; [|exact Hrow].
  rewrite Hstale, Hget. reflexivity.
Defined.
End SettingsStoreMore.

(** ** The list of tapes *)
Section TapeList.
Import MixTape CenturionTapes.

(** X18. [getCenturionTapes] answers with one entry per tape, in the
    order of the table and under the tape's name.  The events of an
    entry are the horn and song cues of the tape's feed and no others,
    in the order of the feed; [horns] is the number of horn cues among
    them, so never more than the number of events. *)
Theorem X18_getCenturionTapes (tapes : list MixTape) :
  name <$> getCenturionTapes tapes = MixTape.name <$> tapes /\
  (forall i t,
      tapes !! i = Some t ->
      exists r,
        getCenturionTapes tapes !! i = Some r /\
        sublist (events r) (feed t) /\
        (forall e, e ∈ events r
                   <-> e ∈ feed t /\ (type e = "horn" \/ type e = "song")) /\
        horns r = length (filter (fun e => type e = "horn") (events r)) /\
        horns r <= length (events r)).
Proof.
  split.
  - unfold getCenturionTapes. rewrite <- list_fmap_compose.
    by apply list_fmap_ext.
  - intros i t Hi. unfold getCenturionTapes.
    rewrite list_lookup_fmap, Hi. simpl. eexists. split; [done|]. simpl.
    assert (Hhorns :
      filter (fun e => type e = "horn")
             (filter (fun e => type e ∈ ["horn"; "song"]) (feed t))
      = filter (fun e => type e = "horn") (feed t)).
    { rewrite list_filter_filter. apply list_filter_iff. intros e.
      split; [tauto|]. intros He. split; [done|]. rewrite He. left. }
    split; [apply sublist_filter|]. split; [|split].
    + intros e. rewrite list_elem_of_filter, !elem_of_cons, elem_of_nil.
      tauto.
    + by rewrite Hhorns.
    + rewrite <- Hhorns. apply length_filter.
Qed.
Lemma X18_getCenturionTapes_witness :
  let t := mkTape "demo" "" ""
             [mkEvent 0 (Horn 1); mkEvent 2 Beat; mkEvent 5 (Song [])] 20 in
  exists r,
    getCenturionTapes [t] !! 0%nat = Some r /\ horns r <= length (events r).
Proof.
  intros t.
  destruct (proj2 (X18_getCenturionTapes [t]) 0%nat t eq_refl)
    as (r & Hr & _ & _ & _ & Hle).
  by exists r.
Defined.
End TapeList.

(** ** The text of an HttpApiException *)
Section StatusText.
Import Js HttpApiException.

Lemma upper_not_lower c : is_upper c = true -> is_lower c = false.
Proof.
  unfold is_upper, is_lower. set (n := Ascii.nat_of_ascii c).
  destruct (Nat.leb_spec 65 n), (Nat.leb_spec n 90),
    (Nat.leb_spec 97 n), (Nat.leb_spec n 122); simpl; try done; lia.
Qed.

Lemma upper_not_space c : is_upper c = true -> is_space c = false.
Proof.
  unfold is_upper, is_space. set (n := Ascii.nat_of_ascii c).
  destruct (Nat.leb_spec 65 n), (Nat.leb_spec n 90), (Nat.eqb_spec n 32),
    (Nat.leb_spec 9 n), (Nat.leb_spec n 13); simpl; try done; lia.
Qed.

Lemma lower_not_space c : is_lower c = true -> is_space c = false.
Proof.
  unfold is_lower, is_space. set (n := Ascii.nat_of_ascii c).
  destruct (Nat.leb_spec 97 n), (Nat.leb_spec n 122), (Nat.eqb_spec n 32),
    (Nat.leb_spec 9 n), (Nat.leb_spec n 13); simpl; try done; lia.
Qed.

Lemma replace_words_space_capitals (in_match : bool) (s : string) :
  replace_words in_match s = space_capitals s.
Proof.
  revert in_match. induction s as [|c s IH]; intros in_match; simpl; [done|].
  destruct (is_upper c) eqn:Hu.
  - rewrite (upper_not_lower c Hu), andb_false_r. by rewrite IH.
  - destruct (in_match && is_lower c); by rewrite IH.
Qed.

(** X19. The replacement of every match of the pattern by a space and
    the match comes to putting a space before every capital letter, for
    every string and wherever the scan stands: a capital always starts a
    match, and no match swallows one. *)
Theorem X19_replace_is_space_before_capitals (in_match : bool) (s : string) :
  replace_words in_match s = space_capitals s.
Proof. apply replace_words_space_capitals. Qed.

Lemma lower_not_upper c : is_lower c = true -> is_upper c = false.
Proof.
  intros Hl. destruct (is_upper c) eqn:Hu; [|done].
  by rewrite (upper_not_lower c Hu) in Hl.
Qed.

Lemma space_capitals_app s1 s2 :
  space_capitals (s1 +:+ s2) = space_capitals s1 +:+ space_capitals s2.
Proof.
  induction s1 as [|c s1 IH]; simpl; [done|].
  destruct (is_upper c); simpl; by rewrite IH.
Qed.

Lemma space_capitals_lower s :
  Forall (fun x => is_lower x = true) (String.list_ascii_of_string s) ->
  space_capitals s = s.
Proof.
  induction s as [|c s IH]; simpl; [done|].
  rewrite Forall_cons. intros [Hc Hs].
  by rewrite (lower_not_upper c Hc), IH.
Qed.

Lemma space_capitals_word w :
  word w -> space_capitals w = String Ascii.Space w.
Proof.
  destruct w as [|c w]; [done|]. intros [Hc Hw]. simpl.
  by rewrite Hc, space_capitals_lower.
Qed.

Lemma trim_end_lower s :
  Forall (fun x => is_lower x = true) (String.list_ascii_of_string s) ->
  trim_end s = s.
Proof.
  induction s as [|c s IH]; simpl; [done|].
  rewrite Forall_cons. intros [Hc Hs]. rewrite IH by done.
  destruct s; [by rewrite (lower_not_space c Hc) | done].
Qed.

Lemma trim_end_word w : word w -> trim_end w = w /\ w <> "".
Proof.
  destruct w as [|c w]; [done|]. intros [Hc Hw]. split; [|done]. simpl.
  rewrite trim_end_lower by done.
  destruct w; [by rewrite (upper_not_space c Hc) | done].
Qed.

Lemma trim_end_app s t :
  trim_end t <> "" -> trim_end (s +:+ t) = s +:+ trim_end t.
Proof.
  intros Ht. induction s as [|c s IH]; simpl; [done|].
  rewrite IH. destruct (s +:+ trim_end t) eqn:Hs; [|change (String c s +:+ trim_end t) with (String c (s +:+ trim_end t));
     by rewrite Hs].
  exfalso. destruct s; simpl in Hs; [done | discriminate].
Qed.

Lemma trim_end_spaced ws :
  Forall word ws -> trim_end (spaced ws) = spaced ws /\ (ws <> [] -> spaced ws <> "").
Proof.
  induction ws as [|w ws IH]; [done|].
  rewrite Forall_cons. intros [Hw Hws].
  destruct (trim_end_word w Hw) as [Hw1 Hw2].
  destruct ws as [|w2 ws]; [done|].
  destruct (IH Hws) as [IH1 IH2].
  change (spaced (w :: w2 :: ws))
    with (w +:+ String Ascii.Space (spaced (w2 :: ws))).
  assert (Hrest : trim_end (String Ascii.Space (spaced (w2 :: ws)))
                  = String Ascii.Space (spaced (w2 :: ws))).
  { cbn [trim_end]. rewrite IH1.
    destruct (spaced (w2 :: ws)) eqn:Hsp; [by destruct IH2 | done]. }
  split.
  - rewrite trim_end_app; by rewrite Hrest.
  - intros _. destruct w; [done | discriminate].
Qed.

Lemma append_empty_r s : s +:+ "" = s.
Proof.
  induction s as [|c s IH]; [done|].
  change (String c s +:+ "") with (String c (s +:+ "")). by rewrite IH.
Qed.

Lemma glue_spaced w ws :
  w +:+ glue ((fun w' => String Ascii.Space w') <$> ws) = spaced (w :: ws).
Proof.
  revert w. induction ws as [|w2 ws IH]; intros w.
  - simpl. by rewrite append_empty_r.
  - change (w +:+ String Ascii.Space
                    (w2 +:+ glue ((fun w' => String Ascii.Space w') <$> ws))
            = w +:+ String Ascii.Space (spaced (w2 :: ws))).
    by rewrite IH.
Qed.

Lemma space_capitals_glue ws :
  Forall word ws ->
  space_capitals (glue ws) = glue ((fun w => String Ascii.Space w) <$> ws).
Proof.
  induction ws as [|w ws IH]; [done|].
  rewrite Forall_cons. intros [Hw Hws]. simpl.
  by rewrite space_capitals_app, space_capitals_word, IH.
Qed.

(** X20. The status text.  For a status whose enum name is made of
    capitalised words, as 'NotFound' is of 'Not' and 'Found', the name
    of the exception is those words with one space between them and
    none around; the message is the message given, or that same text
    when none is given.  For a number that the enum does not know the
    constructor throws a TypeError. *)
Theorem X20_status_text (HttpStatusCode : nat -> option string)
        (code : nat) (msg : option string) :
  (forall ws,
      HttpStatusCode code = Some (glue ws) -> Forall word ws ->
      new HttpStatusCode code msg
      = Return {| statusCode := code;
                  message := default (spaced ws) msg;
                  name := spaced ws |}) /\
  (HttpStatusCode code = None ->
   threw (new HttpStatusCode code msg) = true).
Proof.
  split.
  - intros ws Hcode Hws. unfold new. rewrite Hcode.
    assert (Htext : trim (replace_words false (glue ws)) = spaced ws).
    { rewrite replace_words_space_capitals.
      rewrite space_capitals_glue by done.
      destruct ws as [|w ws]; [done|].
      apply Forall_cons in Hws as Hws'. destruct Hws' as [Hw _].
      change (glue ((fun w => String Ascii.Space w) <$> w :: ws))
        with (String Ascii.Space
                (w +:+ glue ((fun w => String Ascii.Space w) <$> ws))).
      rewrite glue_spaced. unfold trim.
      change (trim_start (String Ascii.Space (spaced (w :: ws))))
        with (trim_start (spaced (w :: ws))).
      assert (Hstart : trim_start (spaced (w :: ws)) = spaced (w :: ws)).
      { rewrite <- glue_spaced. destruct w as [|c w]; [done|].
        destruct Hw as [Hc _].
        change (String c w +:+ ?x) with (String c (w +:+ x)).
        cbn [trim_start]. by rewrite (upper_not_space c Hc). }
      rewrite Hstart. by apply trim_end_spaced. }
    by rewrite Htext.
  - intros Hcode. unfold new. by rewrite Hcode.
Qed.

Lemma X20_status_text_witness :
  let enum := fun code : nat =>
                if decide (code = 404) then Some "NotFound" else None in
  new enum 404 None
  = Return {| statusCode := 404; message := "Not Found";
              name := "Not Found" |}.
Proof.
  intros enum.
  apply (proj1 (X20_status_text enum 404 None) ["Not"; "Found"] eq_refl).
  repeat constructor.
Defined.
End StatusText.

(** ** Resolving the entities of a request *)
Section ResolvedEntities.
Import Entities ModeController.

(** X21. What [mapBodyToEntities] resolves.  Each of the three lists is
    made of the rows of its own class whose id is among
    [lightsGroupIds], in the order of the table; [screenIds] and
    [audioIds] have no part in it; and with an empty [lightsGroupIds]
    nothing at all is resolved. *)
Theorem X21_mapBodyToEntities_resolves (params : EnableModeParams)
        (db : DataSource) :
  let r := mapBodyToEntities params db in
  (forall e, e ∈ lights r
             <-> e ∈ db /\ ctor e = LightsGroup
                 /\ id e ∈ lightsGroupIds params) /\
  (forall e, e ∈ screens r
             <-> e ∈ db /\ ctor e = Screen /\ id e ∈ lightsGroupIds params) /\
  (forall e, e ∈ audios r
             <-> e ∈ db /\ ctor e = Audio /\ id e ∈ lightsGroupIds params) /\
  sublist (lights r) db /\ sublist (screens r) db /\ sublist (audios r) db /\
  (forall params',
      lightsGroupIds params' = lightsGroupIds params ->
      mapBodyToEntities params' db = r) /\
  (lightsGroupIds params = [] -> r = mkResolved [] [] []).
Proof.
  intros r. unfold r, mapBodyToEntities, findEntities, find_in. simpl.
  assert (Hempty : forall cls,
            lightsGroupIds params = [] ->
            filter (fun e => ctor e = cls /\ id e ∈ lightsGroupIds params) db
            = []).
  { intros cls Hnil.
    destruct (filter _ db) as [|y l] eqn:Hf; [done|]. exfalso.
    assert (Hy : y ∈ filter (fun e => ctor e = cls
                                      /\ id e ∈ lightsGroupIds params) db)
      by (rewrite Hf; left).
    apply list_elem_of_filter in Hy as [[_ Hy] _].
    rewrite Hnil in Hy. by apply elem_of_nil in Hy. }
  split; [|split; [|split; [|split; [|split; [|split; [|split]]]]]].
  - intros e. split; intros H;
      [apply list_elem_of_filter in H | apply list_elem_of_filter]; tauto.
  - intros e. split; intros H;
      [apply list_elem_of_filter in H | apply list_elem_of_filter]; tauto.
  - intros e. split; intros H;
      [apply list_elem_of_filter in H | apply list_elem_of_filter]; tauto.
  - apply sublist_filter.
  - apply sublist_filter.
  - apply sublist_filter.
  - intros params' Hsame. unfold mapBodyToEntities, findEntities, find_in.
    by rewrite Hsame.
  - intros Hnil. by rewrite !Hempty.
Qed.

Lemma X21_mapBodyToEntities_resolves_witness :
  mapBodyToEntities (mkParams [] [2] [3])
    [mkEntity Screen 2 "right" "" None; mkEntity Audio 3 "stage" "" None]
  = mkResolved [] [] [].
Proof.
  apply (X21_mapBodyToEntities_resolves (mkParams [] [2] [3])). reflexivity.
Defined.
End ResolvedEntities.
